(** * raus: voice-activated recorder (main.go)

    A shallow embedding of [main.go]: the WAV header and its serialisation,
    the amplitude window with its moving average, the start/stop detector
    and the capture loop of [recordAudioWithDynamicNoiseFloor].

    Conventions.
    - [float64] is Rocq's primitive binary64 float ([PrimFloat.float]); the
      arithmetic and the comparisons are the IEEE 754 ones of the Go code.
    - [int16] samples are integers [s] with [-32768 <= s <= 32767].
    - [uint32] and [uint16] header fields are integers reduced modulo
      [2^32] and [2^16]; the conversion [uint32(n)] is written out.
    - [int] counters ([sampleCount], [silenceCount]) are integers; they are
      incremented once per sample and never reach [2^63] (the buffer holds
      two bytes per counted sample).
    - bytes are [Byte.byte]; the audio buffer is a [list byte]. *)

From Stdlib Require Import ZArith List Bool Lia Floats.
From Stdlib Require Import Strings.Byte Strings.String.
From stdpp Require Import list.

Local Open Scope Z_scope.

(** ** Constants (main.go, lines 17-20) *)

Definition sampleRate : Z := 16000.
Definition windowSize : Z := 2 * 16000.

(** [len(in)], the block size of the input stream (line 83). *)
Definition blockSize : Z := 512.

(** [math.MaxInt16] *)
Definition MaxInt16 : Z := 32767.

Definition is_int16 (s : Z) : Prop := -32768 <= s <= 32767.

(** ** Fixed-width integers and bytes *)

Module Bin.

(** [uint32(n)] for an [int] n. *)
Definition uint32 (n : Z) : Z := n mod 2 ^ 32.

(** [uint16(s)] for an [int16] s: the two's complement bits. *)
Definition uint16 (n : Z) : Z := n mod 2 ^ 16.

(** the low eight bits of [z] as a byte *)
Definition byte_of_Z (z : Z) : byte :=
  match Byte.of_N (Z.to_N (Z.land z 255)) with
  | Some b => b
  | None => x00
  end.

Definition Z_of_byte (b : byte) : Z := Z.of_N (Byte.to_N b).

(** [binary.LittleEndian.PutUint16] and [PutUint32] *)
Definition PutUint16 (v : Z) : list byte :=
  [byte_of_Z v; byte_of_Z (Z.shiftr v 8)].

Definition PutUint32 (v : Z) : list byte :=
  [byte_of_Z v; byte_of_Z (Z.shiftr v 8);
   byte_of_Z (Z.shiftr v 16); byte_of_Z (Z.shiftr v 24)].

(** [binary.LittleEndian.Uint16] and [Uint32], the readers *)
Definition Uint16 (bs : list byte) : Z :=
  match bs with
  | [b0; b1] => Z.lor (Z_of_byte b0) (Z.shiftl (Z_of_byte b1) 8)
  | _ => 0
  end.

Definition Uint32 (bs : list byte) : Z :=
  match bs with
  | [b0; b1; b2; b3] =>
      Z.lor (Z.lor (Z_of_byte b0) (Z.shiftl (Z_of_byte b1) 8))
            (Z.lor (Z.shiftl (Z_of_byte b2) 16) (Z.shiftl (Z_of_byte b3) 24))
  | _ => 0
  end.

(** the [n] bytes at offset [off] *)
Definition slice (off n : nat) (bs : list byte) : list byte :=
  firstn n (skipn off bs).

(** [binary.Write(w, binary.LittleEndian, in)] for [in []int16] *)
Definition write_int16s (samples : list Z) : list byte :=
  flat_map (fun s => PutUint16 (uint16 s)) samples.

End Bin.

(** ** The WAV header (lines 22-36 and 63-79) *)

Record wavHeader := {
  ChunkID : list byte;
  ChunkSize : Z;
  Format : list byte;
  Subchunk1ID : list byte;
  Subchunk1Size : Z;
  AudioFormat : Z;
  NumChannels : Z;
  SampleRate : Z;
  ByteRate : Z;
  BlockAlign : Z;
  BitsPerSample : Z;
  Subchunk2ID : list byte;
  Subchunk2Size : Z
}.

(** [createWAVHeader]; [dataSize] is a [uint32], and so is [36 + dataSize]. *)
Definition createWAVHeader (dataSize : Z) : wavHeader := {|
  ChunkID := list_byte_of_string "RIFF";
  ChunkSize := Bin.uint32 (36 + dataSize);
  Format := list_byte_of_string "WAVE";
  Subchunk1ID := list_byte_of_string "fmt ";
  Subchunk1Size := 16;
  AudioFormat := 1;
  NumChannels := 1;
  SampleRate := sampleRate;
  ByteRate := sampleRate * 2;
  BlockAlign := 2;
  BitsPerSample := 16;
  Subchunk2ID := list_byte_of_string "data";
  Subchunk2Size := dataSize
|}.

(** [binary.Write(os.Stdout, binary.LittleEndian, header)]: the fields in
    declaration order, arrays byte by byte, integers little-endian. *)
Definition write_header (h : wavHeader) : list byte :=
  ChunkID h ++ Bin.PutUint32 (ChunkSize h) ++
  Format h ++
  Subchunk1ID h ++ Bin.PutUint32 (Subchunk1Size h) ++
  Bin.PutUint16 (AudioFormat h) ++ Bin.PutUint16 (NumChannels h) ++
  Bin.PutUint32 (SampleRate h) ++ Bin.PutUint32 (ByteRate h) ++
  Bin.PutUint16 (BlockAlign h) ++ Bin.PutUint16 (BitsPerSample h) ++
  Subchunk2ID h ++ Bin.PutUint32 (Subchunk2Size h).

(** What [main] writes to standard output for a captured [audioBuffer]
    (lines 50-60): the header for [uint32(audioBuffer.Len())], then the
    buffer. *)
Definition encode (audioBuffer : list byte) : list byte :=
  write_header (createWAVHeader (Bin.uint32 (Z.of_nat (length audioBuffer))))
  ++ audioBuffer.

(** ** The amplitude window (lines 100, 131-137, 167-173) *)

Definition float64_of_int (z : Z) : float :=
  if z <? 0 then PrimFloat.opp (PrimFloat.of_uint63 (Uint63.of_Z (- z)))
  else PrimFloat.of_uint63 (Uint63.of_Z z).

(** [math.Abs(float64(sample)) / math.MaxInt16] *)
Definition amplitudeOf (sample : Z) : float :=
  (PrimFloat.abs (float64_of_int sample) / float64_of_int MaxInt16)%float.

(** [calculateAverage] *)
Definition calculateAverage (window : list float) : float :=
  let sum := fold_left (fun sum v => (sum + v)%float) window 0%float in
  (sum / float64_of_int (Z.of_nat (length window)))%float.

Record estimator := {
  window : list float;
  sampleCount : Z
}.

(** [window := make([]float64, windowSize)], [sampleCount] zero *)
Definition newEstimator : estimator := {|
  window := replicate (Z.to_nat windowSize) 0%float;
  sampleCount := 0
|}.

(** Lines 132-137: store the amplitude, count the sample, and evaluate the
    window when [sampleCount >= windowSize].  [%] is Go's remainder. *)
Definition observe (e : estimator) (sample : Z) : estimator * option float :=
  let amplitude := amplitudeOf sample in
  let w := <[Z.to_nat (Z.rem (sampleCount e) windowSize) := amplitude]> (window e) in
  let n := sampleCount e + 1 in
  ({| window := w; sampleCount := n |},
   if windowSize <=? n then Some (calculateAverage w) else None).

(** ** The start/stop detector (lines 95-99, 140-160) *)

Record detector := {
  noiseFloor : float;
  maxNoiseFloor : float;
  recordingStarted : bool;
  silenceCount : Z
}.

Definition newDetector : detector := {|
  noiseFloor := 0%float;
  maxNoiseFloor := 0%float;
  recordingStarted := false;
  silenceCount := 0
|}.

Inductive verdict :=
| Continue (d : detector)
| Stop.

Definition set_noiseFloor (d : detector) (c : float) : detector :=
  {| noiseFloor := c; maxNoiseFloor := maxNoiseFloor d;
     recordingStarted := recordingStarted d; silenceCount := silenceCount d |}.

(** One window evaluation with mean [currentNoiseFloor].  [Stop] is the
    [return audioBuffer] of line 153; otherwise line 160 stores the mean. *)
Definition evaluate (d : detector) (currentNoiseFloor : float) : verdict :=
  if negb (recordingStarted d) then
    if (noiseFloor d * 1.5 <? currentNoiseFloor)%float then
      Continue {| noiseFloor := currentNoiseFloor;
                  maxNoiseFloor := currentNoiseFloor;
                  recordingStarted := true;
                  silenceCount := silenceCount d |}
    else Continue (set_noiseFloor d currentNoiseFloor)
  else if (maxNoiseFloor d <? currentNoiseFloor)%float then
    Continue {| noiseFloor := currentNoiseFloor;
                maxNoiseFloor := currentNoiseFloor;
                recordingStarted := true;
                silenceCount := 0 |}
  else if (currentNoiseFloor <? maxNoiseFloor d * 0.5)%float then
    let silenceCount' := silenceCount d + 1 in
    if 5 <? silenceCount' then Stop
    else Continue {| noiseFloor := currentNoiseFloor;
                     maxNoiseFloor := maxNoiseFloor d;
                     recordingStarted := true;
                     silenceCount := silenceCount' |}
  else
    Continue {| noiseFloor := currentNoiseFloor;
                maxNoiseFloor := maxNoiseFloor d;
                recordingStarted := true;
                silenceCount := 0 |}.

(** ** The capture loop (lines 116-164) *)

(** The body of [for _, sample := range in]: [None] when the detector
    returned in the middle of the block. *)
Fixpoint processBlock (e : estimator) (d : detector) (block : list Z)
  : option (estimator * detector) :=
  match block with
  | [] => Some (e, d)
  | sample :: rest =>
      let (e', r) := observe e sample in
      match r with
      | None => processBlock e' d rest
      | Some currentNoiseFloor =>
          match evaluate d currentNoiseFloor with
          | Stop => None
          | Continue d' => processBlock e' d' rest
          end
      end
  end.

(** What one iteration of the outer loop finds: the stop channel closed,
    a block delivered by [stream.Read], or a read error. *)
Inductive tick :=
| StopClosed
| Block (block : list Z)
| ReadError.

Inductive outcome :=
| Interrupted (audioBuffer : list byte)   (* line 119 *)
| Stopped (audioBuffer : list byte)       (* line 153 *)
| Fatal                                   (* [log.Fatal], line 123 *)
| Running (audioBuffer : list byte) (e : estimator) (d : detector).

Fixpoint recordLoop (ticks : list tick) (audioBuffer : list byte)
  (e : estimator) (d : detector) : outcome :=
  match ticks with
  | [] => Running audioBuffer e d
  | StopClosed :: _ => Interrupted audioBuffer
  | ReadError :: _ => Fatal
  | Block block :: rest =>
      let audioBuffer' := audioBuffer ++ Bin.write_int16s block in
      match processBlock e d block with
      | None => Stopped audioBuffer'
      | Some (e', d') => recordLoop rest audioBuffer' e' d'
      end
  end.

Definition recordAudioWithDynamicNoiseFloor (ticks : list tick) : outcome :=
  recordLoop ticks [] newEstimator newDetector.

(** * Serialisation lemmas *)

Module BinFacts.
Import Bin.

Lemma Z_of_byte_of_Z (z : Z) : Z_of_byte (byte_of_Z z) = Z.land z 255.
Proof.
  unfold Z_of_byte, byte_of_Z.
  assert (Hr : 0 <= Z.land z 255 <= 255).
  { change 255 with (Z.ones 8). rewrite Z.land_ones by lia.
    change (Z.ones 8) with (2 ^ 8 - 1).
    pose proof (Z.mod_pos_bound z (2 ^ 8) ltac:(lia)). lia. }
  destruct (Byte.of_N (Z.to_N (Z.land z 255))) as [b|] eqn:E.
  - apply Byte.to_of_N in E. rewrite E. apply Z2N.id. lia.
  - apply Byte.of_N_None_iff in E. lia.
Qed.

Lemma land_255_testbit (z n : Z) :
  0 <= n -> Z.testbit (Z.land z 255) n = Z.testbit z n && (n <? 8).
Proof.
  intros Hn. rewrite Z.land_spec. change 255 with (Z.ones 8).
  now rewrite Z.testbit_ones_nonneg by lia.
Qed.

(** Reading back what [PutUint32] wrote gives the value as a [uint32]. *)
Lemma Uint32_PutUint32 (v : Z) : Uint32 (PutUint32 v) = v mod 2 ^ 32.
Proof.
  unfold Uint32, PutUint32. rewrite !Z_of_byte_of_Z.
  apply Z.bits_inj'. intros n Hn.
  rewrite Z.testbit_mod_pow2 by lia.
  rewrite !Z.lor_spec, !Z.shiftl_spec by lia.
  rewrite land_255_testbit by lia.
  destruct (Z.ltb_spec n 8) as [H8|H8].
  { rewrite !(Z.testbit_neg_r _ (n - _)) by lia.
    replace (n <? 32) with true by (symmetry; apply Z.ltb_lt; lia).
    now rewrite andb_true_r, !orb_false_r. }
  rewrite andb_false_r, orb_false_l.
  rewrite land_255_testbit, Z.shiftr_spec by lia.
  replace (n - 8 + 8) with n by lia.
  destruct (Z.ltb_spec (n - 8) 8) as [H16|H16].
  { rewrite !(Z.testbit_neg_r _ (n - _)) by lia.
    replace (n <? 32) with true by (symmetry; apply Z.ltb_lt; lia).
    now rewrite andb_true_r, !orb_false_r. }
  rewrite andb_false_r, orb_false_l.
  rewrite (land_255_testbit _ (n - 16)), Z.shiftr_spec by lia.
  replace (n - 16 + 16) with n by lia.
  destruct (Z.ltb_spec (n - 16) 8) as [H24|H24].
  { rewrite (Z.testbit_neg_r _ (n - 24)) by lia.
    replace (n <? 32) with true by (symmetry; apply Z.ltb_lt; lia).
    now rewrite andb_true_r, orb_false_r. }
  rewrite andb_false_r, orb_false_l.
  rewrite land_255_testbit, Z.shiftr_spec by lia.
  replace (n - 24 + 24) with n by lia.
  destruct (Z.ltb_spec (n - 24) 8) as [H32|H32].
  - replace (n <? 32) with true by (symmetry; apply Z.ltb_lt; lia).
    now rewrite andb_true_r.
  - replace (n <? 32) with false by (symmetry; apply Z.ltb_ge; lia).
    now rewrite andb_false_r.
Qed.

Lemma Uint16_PutUint16 (v : Z) : Uint16 (PutUint16 v) = v mod 2 ^ 16.
Proof.
  unfold Uint16, PutUint16. rewrite !Z_of_byte_of_Z.
  apply Z.bits_inj'. intros n Hn.
  rewrite Z.testbit_mod_pow2 by lia.
  rewrite !Z.lor_spec, !Z.shiftl_spec by lia.
  rewrite land_255_testbit by lia.
  destruct (Z.ltb_spec n 8) as [H8|H8].
  { rewrite !(Z.testbit_neg_r _ (n - _)) by lia.
    replace (n <? 16) with true by (symmetry; apply Z.ltb_lt; lia).
    now rewrite andb_true_r, !orb_false_r. }
  rewrite andb_false_r, orb_false_l.
  rewrite land_255_testbit, Z.shiftr_spec by lia.
  replace (n - 8 + 8) with n by lia.
  destruct (Z.ltb_spec (n - 8) 8) as [H16|H16].
  - replace (n <? 16) with true by (symmetry; apply Z.ltb_lt; lia).
    now rewrite andb_true_r.
  - replace (n <? 16) with false by (symmetry; apply Z.ltb_ge; lia).
    now rewrite andb_false_r.
Qed.

Lemma length_write_int16s (samples : list Z) :
  length (write_int16s samples) = (2 * length samples)%nat.
Proof.
  unfold write_int16s. induction samples as [|s rest IH]; simpl; [reflexivity|].
  rewrite IH. lia.
Qed.

Lemma write_int16s_app (xs ys : list Z) :
  write_int16s (xs ++ ys) = write_int16s xs ++ write_int16s ys.
Proof. unfold write_int16s. apply flat_map_app. Qed.

End BinFacts.

(** * The WAV container *)

Module Wav.
Import Bin BinFacts.

(** The header fields as a reader finds them in an encoded stream. *)
Record parsed := {
  p_riff : list byte;       (* bytes 0-3 *)
  p_chunkSize : Z;          (* bytes 4-7 *)
  p_wave : list byte;       (* bytes 8-11 *)
  p_fmt : list byte;        (* bytes 12-15 *)
  p_fmtSize : Z;            (* bytes 16-19 *)
  p_audioFormat : Z;        (* bytes 20-21 *)
  p_numChannels : Z;        (* bytes 22-23 *)
  p_sampleRate : Z;         (* bytes 24-27 *)
  p_byteRate : Z;           (* bytes 28-31 *)
  p_blockAlign : Z;         (* bytes 32-33 *)
  p_bitsPerSample : Z;      (* bytes 34-35 *)
  p_data : list byte;       (* bytes 36-39 *)
  p_dataSize : Z            (* bytes 40-43 *)
}.

Definition parse (out : list byte) : parsed := {|
  p_riff := slice 0 4 out;
  p_chunkSize := Uint32 (slice 4 4 out);
  p_wave := slice 8 4 out;
  p_fmt := slice 12 4 out;
  p_fmtSize := Uint32 (slice 16 4 out);
  p_audioFormat := Uint16 (slice 20 2 out);
  p_numChannels := Uint16 (slice 22 2 out);
  p_sampleRate := Uint32 (slice 24 4 out);
  p_byteRate := Uint32 (slice 28 4 out);
  p_blockAlign := Uint16 (slice 32 2 out);
  p_bitsPerSample := Uint16 (slice 34 2 out);
  p_data := slice 36 4 out;
  p_dataSize := Uint32 (slice 40 4 out)
|}.

(** The header parsed from a stream whose size fields read [chunk] and
    [data]; every other field is fixed by [createWAVHeader]. *)
Definition expected (chunk data : Z) : parsed := {|
  p_riff := list_byte_of_string "RIFF";
  p_chunkSize := chunk;
  p_wave := list_byte_of_string "WAVE";
  p_fmt := list_byte_of_string "fmt ";
  p_fmtSize := 16;
  p_audioFormat := 1;
  p_numChannels := 1;
  p_sampleRate := 16000;
  p_byteRate := 32000;
  p_blockAlign := 2;
  p_bitsPerSample := 16;
  p_data := list_byte_of_string "data";
  p_dataSize := data
|}.

Lemma length_write_header (h : wavHeader) :
  length (ChunkID h) = 4%nat -> length (Format h) = 4%nat ->
  length (Subchunk1ID h) = 4%nat -> length (Subchunk2ID h) = 4%nat ->
  length (write_header h) = 44%nat.
Proof.
  intros H1 H2 H3 H4. unfold write_header.
  repeat rewrite length_app. rewrite H1, H2, H3, H4. reflexivity.
Qed.

Lemma length_header (dataSize : Z) :
  length (write_header (createWAVHeader dataSize)) = 44%nat.
Proof. now apply length_write_header. Qed.

Lemma length_encode (audioBuffer : list byte) :
  length (encode audioBuffer) = (44 + length audioBuffer)%nat.
Proof. unfold encode. now rewrite length_app, length_header. Qed.

Lemma encode_payload (audioBuffer : list byte) :
  skipn 44 (encode audioBuffer) = audioBuffer.
Proof. reflexivity. Qed.

Lemma encode_header (audioBuffer : list byte) :
  firstn 44 (encode audioBuffer) =
  write_header (createWAVHeader (uint32 (Z.of_nat (length audioBuffer)))).
Proof. reflexivity. Qed.

(** Parsing an encoded stream, for a buffer of any length: the two size
    fields hold the length as [uint32] arithmetic leaves it. *)
Lemma parse_encode (audioBuffer : list byte) :
  let n := Z.of_nat (length audioBuffer) in
  parse (encode audioBuffer) =
  expected ((36 + n mod 2 ^ 32) mod 2 ^ 32) (n mod 2 ^ 32).
Proof.
  intros n. unfold parse, expected. f_equal.
  - change (slice 4 4 (encode audioBuffer))
      with (PutUint32 (uint32 (36 + uint32 n))).
    rewrite Uint32_PutUint32. unfold uint32.
    now rewrite Z.mod_mod by lia.
  - change (slice 40 4 (encode audioBuffer)) with (PutUint32 (uint32 n)).
    rewrite Uint32_PutUint32. unfold uint32. now rewrite Z.mod_mod by lia.
Qed.

(** The sample at index [i] is read back, as its 16 bits, from the two
    bytes at offset [2 * i] of the written samples. *)
Lemma read_sample (samples : list Z) (i : nat) (s : Z) :
  samples !! i = Some s ->
  Uint16 (slice (2 * i) 2 (write_int16s samples)) = uint16 s.
Proof.
  revert i. induction samples as [|x rest IH]; intros i Hi; [discriminate|].
  destruct i as [|i].
  - injection Hi as ->.
    change (slice (2 * 0) 2 (write_int16s (s :: rest)))
      with (PutUint16 (uint16 s)).
    rewrite Uint16_PutUint16. unfold uint16. now rewrite Z.mod_mod by lia.
  - replace (2 * S i)%nat with (S (S (2 * i))) by lia.
    change (slice (S (S (2 * i))) 2 (write_int16s (x :: rest)))
      with (slice (2 * i) 2 (write_int16s rest)).
    now apply IH.
Qed.

(** A buffer of 2^31 samples: its byte length, 2^32, wraps to 0 as a
    [uint32], so bytes 40-43 read 0 and bytes 4-7 read 36. *)
Lemma size_fields_wrap :
  let samples := repeat 0 (Z.to_nat (2 ^ 31)) in
  let k := Z.of_nat (length samples) in
  let h := parse (encode (write_int16s samples)) in
  k = 2 ^ 31 /\ p_dataSize h = 0 /\ p_chunkSize h = 36 /\
  (p_dataSize h =? 2 * k) = false /\ (p_chunkSize h =? 36 + 2 * k) = false.
Proof.
  cbv zeta. rewrite parse_encode, length_write_int16s, repeat_length.
  rewrite Nat2Z.inj_mul, Z2Nat.id by lia.
  cbn [expected p_dataSize p_chunkSize].
  change (Z.of_nat 2 * 2 ^ 31) with (2 ^ 32).
  repeat split; reflexivity.
Qed.

(** C4, for buffers whose sizes fit the 32-bit fields.  For a captured
    buffer of [k] 16-bit samples with [36 + 2k < 2^32] the encoder emits
    a 44-byte header followed by the [2k] little-endian sample bytes, and
    the header parses back to data size [2k], chunk size [36 + 2k], the
    tags RIFF, WAVE, "fmt " and data, format 1, one channel, rate 16000,
    byte rate 32000, block align 2 and 16 bits per sample; each sample is
    read back from its two bytes. *)
Theorem wav_roundtrip (samples : list Z) :
  let k := Z.of_nat (length samples) in
  let out := encode (write_int16s samples) in
  36 + 2 * k < 2 ^ 32 ->
  Z.of_nat (length out) = 44 + 2 * k
  /\ length (firstn 44 out) = 44%nat
  /\ skipn 44 out = write_int16s samples
  /\ Z.of_nat (length (write_int16s samples)) = 2 * k
  /\ parse out = expected (36 + 2 * k) (2 * k)
  /\ (forall i s, samples !! i = Some s ->
        Uint16 (slice (44 + 2 * i) 2 out) = uint16 s).
Proof.
  intros k out Hk. subst out.
  assert (Hlen : Z.of_nat (length (write_int16s samples)) = 2 * k).
  { rewrite length_write_int16s. subst k. lia. }
  split; [|split; [|split; [|split; [|split]]]].
  - rewrite length_encode. lia.
  - rewrite encode_header. apply length_header.
  - apply encode_payload.
  - exact Hlen.
  - rewrite parse_encode. cbv zeta. rewrite Hlen.
    rewrite (Z.mod_small (2 * k)) by lia. now rewrite Z.mod_small by lia.
  - intros i s Hi.
    change (slice (44 + 2 * i) 2 (encode (write_int16s samples)))
      with (slice (2 * i) 2 (write_int16s samples)).
    now apply read_sample.
Qed.

Lemma wav_roundtrip_witness :
  parse (encode (write_int16s [1; -2; 300])) = expected 42 6.
Proof.
  apply (wav_roundtrip [1; -2; 300]). reflexivity.
Defined.

End Wav.

(** * The sliding-window estimator *)

(** The estimator fed with a sequence of samples: the final state and the
    window means it evaluated on the way, in order. *)
Fixpoint runEstimator (e : estimator) (samples : list Z)
  : estimator * list float :=
  match samples with
  | [] => (e, [])
  | sample :: rest =>
      let (e', r) := observe e sample in
      let (e'', cs) := runEstimator e' rest in
      (e'', match r with Some c => c :: cs | None => cs end)
  end.

Definition evaluations (samples : list Z) : list float :=
  snd (runEstimator newEstimator samples).

(** [windowSize] as a list length *)
Definition W : nat := Z.to_nat windowSize.

(** The amplitudes of the [W] samples from index [k] on, oldest first. *)
Definition recent (samples : list Z) (k : nat) : list float :=
  amplitudeOf <$> take W (drop k samples).

(** The same amplitudes at their ring positions: the sample of index [i]
    sits in slot [i mod W]. *)
Definition ringOf (samples : list Z) (k : nat) : list float :=
  rotate (W - k mod W) (recent samples k).

Definition windowMean (samples : list Z) (k : nat) : float :=
  calculateAverage (ringOf samples k).

Module Estimator.

Lemma W_pos : (0 < W)%nat.
Proof. unfold W, windowSize. lia. Qed.

Lemma W_windowSize : Z.of_nat W = windowSize.
Proof. unfold W, windowSize. lia. Qed.

(** What the estimator holds after the samples [all]. *)
Record Inv (all : list Z) (e : estimator) : Prop := {
  inv_count : sampleCount e = Z.of_nat (length all);
  inv_length : length (window e) = W;
  inv_slot : forall (i : nat) (a : Z),
      (length all <= i + W)%nat -> all !! i = Some a ->
      window e !! (i mod W)%nat = Some (amplitudeOf a);
  inv_fresh : forall j : nat,
      (length all <= j < W)%nat -> window e !! j = Some 0%float
}.

Lemma Inv_new : Inv [] newEstimator.
Proof.
  split; unfold newEstimator; cbn [window sampleCount]; fold W.
  - reflexivity.
  - apply length_replicate.
  - intros i a _ H. discriminate.
  - intros j Hj. apply lookup_replicate_2. lia.
Qed.

Lemma slot_index (e : estimator) (n : nat) :
  sampleCount e = Z.of_nat n ->
  Z.to_nat (Z.rem (sampleCount e) windowSize) = (n mod W)%nat.
Proof.
  intros ->. pose proof W_pos.
  rewrite Z.rem_mod_nonneg by (rewrite <- ?W_windowSize; lia).
  rewrite <- W_windowSize, <- Nat2Z.inj_mod. apply Nat2Z.id.
Qed.

Lemma mod_apart (i n : nat) :
  (i < n)%nat -> (n < i + W)%nat -> (i mod W)%nat <> (n mod W)%nat.
Proof.
  intros H1 H2 E. pose proof W_pos as HW.
  pose proof (Nat.div_mod_eq i W) as Hi.
  pose proof (Nat.div_mod_eq n W) as Hn.
  rewrite E in Hi.
  destruct (Nat.lt_ge_cases (i / W) (n / W)) as [Hlt|Hge].
  - pose proof (Nat.mul_le_mono_l (S (i / W)) (n / W) W Hlt). lia.
  - pose proof (Nat.mul_le_mono_l (n / W) (i / W) W Hge). lia.
Qed.

Lemma observe_fst (e : estimator) (s : Z) :
  fst (observe e s) =
  {| window := <[Z.to_nat (Z.rem (sampleCount e) windowSize) := amplitudeOf s]> (window e);
     sampleCount := sampleCount e + 1 |}.
Proof. reflexivity. Qed.

Lemma observe_snd (e : estimator) (s : Z) :
  snd (observe e s) =
  if windowSize <=? sampleCount e + 1
  then Some (calculateAverage (window (fst (observe e s)))) else None.
Proof. reflexivity. Qed.

Lemma Inv_observe (all : list Z) (e : estimator) (s : Z) :
  Inv all e -> Inv (all ++ [s]) (fst (observe e s)).
Proof.
  intros [Hc Hl Hs Hf]. pose proof W_pos as HW.
  rewrite observe_fst, (slot_index e _ Hc).
  split; cbn [window sampleCount].
  - rewrite length_app. simpl. lia.
  - now rewrite length_insert.
  - intros i a Hi Ha. rewrite length_app in Hi. simpl in Hi.
    destruct (Nat.lt_trichotomy i (length all)) as [Hlt|[->|Hgt]].
    + rewrite lookup_app_l in Ha by assumption.
      rewrite list_lookup_insert_ne by (apply not_eq_sym, mod_apart; lia).
      apply Hs; [lia | assumption].
    + rewrite list_lookup_middle in Ha by reflexivity. injection Ha as <-.
      apply list_lookup_insert_eq. rewrite Hl. now apply Nat.mod_upper_bound, Nat.neq_0_lt_0.
    + apply lookup_lt_Some in Ha. rewrite length_app in Ha. simpl in Ha. lia.
  - intros j Hj. rewrite length_app in Hj. simpl in Hj.
    rewrite Nat.mod_small by lia.
    rewrite list_lookup_insert_ne by lia. apply Hf. lia.
Qed.

Lemma recent_length (all : list Z) (k : nat) :
  (k + W <= length all)%nat -> length (recent all k) = W.
Proof.
  intros H. unfold recent. rewrite length_fmap, length_take, length_drop. lia.
Qed.

Lemma recent_lookup (all : list Z) (k t : nat) :
  (t < W)%nat -> recent all k !! t = amplitudeOf <$> all !! (k + t)%nat.
Proof.
  intros H. unfold recent. rewrite list_lookup_fmap, lookup_take, lookup_drop.
  now destruct (decide (t < W)%nat).
Qed.

(** The slot that holds the sample of index [k + t], for [t] the position
    a rotation by [W - k mod W] reads for slot [j]. *)
Lemma ring_index (k j : nat) :
  (j < W)%nat ->
  ((k + rotate_nat_add (W - k mod W) j W) mod W)%nat = j.
Proof.
  intros Hj. pose proof W_pos as HW.
  pose proof (Nat.div_mod_eq k W) as Hk.
  pose proof (Nat.mod_upper_bound k W ltac:(lia)) as Hr.
  set (r := (k mod W)%nat) in *. set (q := (k / W)%nat) in *.
  unfold rotate_nat_add.
  destruct (Nat.lt_ge_cases j r) as [Hlt|Hge].
  - rewrite Z.mod_small by lia.
    symmetry. apply Nat.mod_unique with (q := S q); lia.
  - replace (Z.of_nat (W - r) + Z.of_nat j)
      with (Z.of_nat (j - r) + 1 * Z.of_nat W) by lia.
    rewrite Z_mod_plus_full, Z.mod_small by lia.
    symmetry. apply Nat.mod_unique with (q := q); lia.
Qed.

(** Once [W] samples went in, the window is the ring of the last [W]. *)
Lemma Inv_ring (all : list Z) (e : estimator) :
  Inv all e -> (W <= length all)%nat ->
  window e = ringOf all (length all - W).
Proof.
  intros [Hc Hl Hs Hf] Hn. pose proof W_pos as HW.
  set (k := (length all - W)%nat).
  assert (Hrl : length (recent all k) = W) by (apply recent_length; lia).
  apply list_eq. intros j. unfold ringOf.
  destruct (Nat.lt_ge_cases j W) as [Hj|Hj].
  - rewrite lookup_rotate_r by lia. rewrite Hrl.
    pose proof (rotate_nat_add_lt (W - k mod W) j W HW) as Ht.
    set (t := rotate_nat_add (W - k mod W) j W) in *.
    rewrite recent_lookup by assumption.
    destruct (lookup_lt_is_Some_2 all (k + t)%nat ltac:(lia)) as [a Ha].
    rewrite Ha. simpl.
    rewrite <- (ring_index k j Hj). fold t.
    apply Hs; [lia | assumption].
  - rewrite !lookup_ge_None_2; [reflexivity | rewrite length_rotate; lia | lia].
Qed.

Lemma ringOf_app (l l' : list Z) (k : nat) :
  (k + W <= length l)%nat -> ringOf (l ++ l') k = ringOf l k.
Proof.
  intros H. unfold ringOf, recent.
  rewrite drop_app_le by lia. rewrite take_app_le; [reflexivity|].
  rewrite length_drop. lia.
Qed.

Lemma runEstimator_fst_snoc (e : estimator) (s : Z) (rest : list Z) :
  runEstimator e (s :: rest) =
  (fst (runEstimator (fst (observe e s)) rest),
   match snd (observe e s) with
   | Some c => c :: snd (runEstimator (fst (observe e s)) rest)
   | None => snd (runEstimator (fst (observe e s)) rest)
   end).
Proof.
  cbn [runEstimator]. destruct (observe e s) as [e1 r].
  cbn [fst snd]. now destruct (runEstimator e1 rest).
Qed.

(** The means evaluated while the samples [rest] go in, after [all]. *)
Lemma runEstimator_evals (rest all : list Z) (e : estimator) :
  Inv all e ->
  let n := length all in
  snd (runEstimator e rest) =
  map (windowMean (all ++ rest))
      (seq (n + 1 - W) ((n + length rest + 1 - W) - (n + 1 - W))).
Proof.
  revert all e. induction rest as [|s rest IH]; intros all e HI n.
  - replace (n + length [] + 1 - W - (n + 1 - W))%nat with 0%nat
      by (simpl; lia).
    reflexivity.
  - rewrite runEstimator_fst_snoc. cbn [snd].
    pose proof (Inv_observe all e s HI) as HI1.
    specialize (IH _ _ HI1). cbn zeta in IH.
    rewrite length_app in IH. cbn [length] in IH.
    rewrite <- app_assoc in IH. cbn [app] in IH.
    rewrite IH, observe_snd, (inv_count _ _ HI), <- W_windowSize.
    fold n. cbn [length].
    destruct (Z.leb_spec (Z.of_nat W) (Z.of_nat n + 1)) as [Hle|Hgt].
    + replace (n + S (length rest) + 1 - W - (n + 1 - W))%nat
        with (S (length rest)) by lia.
      replace (n + 1 + length rest + 1 - W - (n + 1 + 1 - W))%nat
        with (length rest) by lia.
      replace (n + 1 + 1 - W)%nat with (S (n + 1 - W)) by lia.
      cbn [seq map]. f_equal.
      unfold windowMean. f_equal.
      rewrite (Inv_ring _ _ HI1) by (rewrite length_app; simpl; lia).
      rewrite length_app. cbn [length]. fold n.
      change (all ++ s :: rest) with (all ++ [s] ++ rest).
      rewrite app_assoc. symmetry. apply ringOf_app.
      rewrite length_app. simpl. lia.
    + replace (n + 1 + 1 - W)%nat with (n + 1 - W)%nat by lia.
      f_equal. f_equal. lia.
Qed.

Lemma evaluations_closed (samples : list Z) :
  evaluations samples =
  map (windowMean samples) (seq 0 (length samples + 1 - W)).
Proof.
  unfold evaluations.
  rewrite (runEstimator_evals samples [] newEstimator Inv_new).
  pose proof W_pos. cbn [length app].
  replace (0 + 1 - W)%nat with 0%nat by lia.
  f_equal. f_equal. lia.
Qed.

(** With 32001 samples the window is evaluated twice, after the 32000th
    and after the 32001st sample, where one evaluation per [windowSize]
    samples would give [32001 / 32000 = 1]. *)
Lemma evaluations_every_sample :
  let samples := repeat 0 (Z.to_nat 32001) in
  Z.of_nat (length (evaluations samples)) = 2 /\
  Z.of_nat (length samples) / windowSize = 1.
Proof.
  cbv zeta. rewrite evaluations_closed, length_map, length_seq, repeat_length.
  split; [unfold W, windowSize; lia | reflexivity].
Qed.

(** C1, as the code has it.  For every sample sequence of length [N] the
    estimator evaluates the window after each sample from the
    [windowSize]-th on, [max 0 (N - windowSize + 1)] times in all and not
    once per [windowSize] samples; the [k]-th evaluation (from 0) is the
    mean of the ring holding the amplitudes of the [windowSize] most
    recent samples, those of index [k] to [k + windowSize - 1]. *)
Theorem evaluations_sliding (samples : list Z) :
  evaluations samples =
    map (windowMean samples) (seq 0 (length samples + 1 - W))
  /\ Z.of_nat (length (evaluations samples)) =
       Z.max 0 (Z.of_nat (length samples) - windowSize + 1)
  /\ (forall k : nat, (k + W <= length samples)%nat ->
        evaluations samples !! k = Some (windowMean samples k) /\
        length (ringOf samples k) = W /\
        ringOf samples k ≡ₚ amplitudeOf <$> take W (drop k samples)).
Proof.
  pose proof W_pos as HW. pose proof W_windowSize as HWs.
  split; [apply evaluations_closed|split].
  - rewrite evaluations_closed, length_map, length_seq. lia.
  - intros k Hk. split; [|split].
    + rewrite evaluations_closed, list_lookup_fmap.
      rewrite lookup_seq_lt by lia. reflexivity.
    + unfold ringOf. rewrite length_rotate. now apply recent_length.
    + unfold ringOf, recent, rotate.
      set (l := amplitudeOf <$> take W (drop k samples)).
      rewrite Permutation_app_comm. now rewrite take_drop.
Qed.

End Estimator.

(** * The detector on a sequence of window means *)

(** The detector fed with successive window means, until it stops. *)
Fixpoint feed (d : detector) (means : list float) : verdict :=
  match means with
  | [] => Continue d
  | c :: rest =>
      match evaluate d c with
      | Stop => Stop
      | Continue d' => feed d' rest
      end
  end.

(** The index of the evaluation at which [Stop] is signalled, if any. *)
Fixpoint stopIndex (d : detector) (means : list float) : option nat :=
  match means with
  | [] => None
  | c :: rest =>
      match evaluate d c with
      | Stop => Some 0%nat
      | Continue d' => S <$> stopIndex d' rest
      end
  end.

(** The three cases of an evaluation while recording (lines 146-157). *)
Definition newMaximum (d : detector) (c : float) : bool :=
  (maxNoiseFloor d <? c)%float.

Definition belowHalf (d : detector) (c : float) : bool :=
  (c <? maxNoiseFloor d * 0.5)%float.

(** a low evaluation: below half the maximum, and no new maximum *)
Definition low (d : detector) (c : float) : bool :=
  negb (newMaximum d c) && belowHalf d c.

(** the hysteresis band: neither a new maximum nor below half of it *)
Definition inBand (d : detector) (c : float) : bool :=
  negb (newMaximum d c) && negb (belowHalf d c).

Module FloatFacts.

Local Open Scope float_scope.

Lemma ltb_irrefl (x : float) : (x <? x) = false.
Proof.
  rewrite FloatAxioms.ltb_spec. unfold SFltb.
  destruct (Prim2SF x) as [s|s| |s m e]; simpl; try reflexivity.
  - now destruct s.
  - destruct s; rewrite Z.compare_refl, Pos.compare_cont_refl; reflexivity.
Qed.

(** The floats equal to zero are the two zeros. *)
Lemma eqb_zero (z : float) : (z =? 0) = true -> z = 0 \/ z = -0.
Proof.
  rewrite FloatAxioms.eqb_spec. intros H.
  rewrite <- (SF2Prim_Prim2SF z).
  change (Prim2SF 0) with (S754_zero false) in H.
  destruct (Prim2SF z) as [s|s| |s m e]; simpl in H; try discriminate.
  - destruct s; [right|left]; reflexivity.
  - now destruct s.
  - now destruct s.
Qed.

Lemma ltb_neg_zero (c : float) : (-0 <? c) = (0 <? c).
Proof.
  rewrite !FloatAxioms.ltb_spec.
  change (Prim2SF (-0)) with (S754_zero true).
  change (Prim2SF 0) with (S754_zero false).
  now destruct (Prim2SF c).
Qed.

(** The onset threshold over a zero noise floor is zero. *)
Lemma onset_over_zero (z c : float) :
  (z =? 0) = true -> (z * 1.5 <? c) = (0 <? c).
Proof.
  intros H. destruct (eqb_zero z H) as [-> | ->].
  - reflexivity.
  - change (-0 * 1.5) with (-0). apply ltb_neg_zero.
Qed.

End FloatFacts.

Module Detector.

Lemma evaluate_armed (d : detector) (c : float) :
  recordingStarted d = false ->
  evaluate d c =
  Continue {| noiseFloor := c;
              maxNoiseFloor :=
                if (noiseFloor d * 1.5 <? c)%float then c else maxNoiseFloor d;
              recordingStarted := (noiseFloor d * 1.5 <? c)%float;
              silenceCount := silenceCount d |}.
Proof.
  intros H. unfold evaluate, set_noiseFloor. rewrite H. cbn [negb].
  now destruct (noiseFloor d * 1.5 <? c)%float.
Qed.

Lemma evaluate_low (d : detector) (c : float) :
  recordingStarted d = true -> low d c = true ->
  evaluate d c =
  if 5 <? silenceCount d + 1 then Stop
  else Continue {| noiseFloor := c;
                   maxNoiseFloor := maxNoiseFloor d;
                   recordingStarted := true;
                   silenceCount := silenceCount d + 1 |}.
Proof.
  intros H Hl. unfold low, newMaximum, belowHalf in Hl.
  apply andb_true_iff in Hl as [H1 H2]. apply negb_true_iff in H1.
  unfold evaluate. rewrite H, H1, H2. reflexivity.
Qed.

Lemma evaluate_reset (d : detector) (c : float) :
  recordingStarted d = true -> low d c = false ->
  evaluate d c =
  Continue {| noiseFloor := c;
              maxNoiseFloor := if newMaximum d c then c else maxNoiseFloor d;
              recordingStarted := true;
              silenceCount := 0 |}.
Proof.
  intros H Hl. unfold low, newMaximum, belowHalf in *.
  unfold evaluate. rewrite H. cbn [negb].
  destruct (maxNoiseFloor d <? c)%float; [reflexivity|].
  cbn [negb andb] in Hl. now rewrite Hl.
Qed.

(** A low evaluation is judged against the maximum alone. *)
Lemma low_same_max (d d' : detector) (c : float) :
  maxNoiseFloor d' = maxNoiseFloor d -> low d' c = low d c.
Proof. unfold low, newMaximum, belowHalf. now intros ->. Qed.

Lemma feed_app (d : detector) (pre l : list float) :
  feed d (pre ++ l) =
  match feed d pre with
  | Stop => Stop
  | Continue d' => feed d' l
  end.
Proof.
  revert d. induction pre as [|c pre IH]; intros d; cbn [feed app].
  - reflexivity.
  - destruct (evaluate d c); [apply IH | reflexivity].
Qed.

Lemma stopIndex_app (d d' : detector) (pre l : list float) :
  feed d pre = Continue d' ->
  stopIndex d (pre ++ l) = (fun i => (length pre + i)%nat) <$> stopIndex d' l.
Proof.
  revert d. induction pre as [|c pre IH]; intros d; cbn [feed app stopIndex].
  - intros [= ->]. now destruct (stopIndex d' l).
  - destruct (evaluate d c) as [d1|]; [|discriminate].
    intros H. rewrite (IH _ H). now destruct (stopIndex d' l).
Qed.

Lemma feed_stop_prefix (d : detector) (pre l : list float) :
  feed d pre = Stop -> feed d (pre ++ l) = Stop.
Proof. intros H. now rewrite feed_app, H. Qed.

(** [Stop] is signalled exactly when feeding does not continue. *)
Lemma stopIndex_feed (d : detector) (cs : list float) :
  stopIndex d cs = None <-> exists d', feed d cs = Continue d'.
Proof.
  revert d. induction cs as [|c cs IH]; intros d; cbn [feed stopIndex].
  - split; [eauto | reflexivity].
  - destruct (evaluate d c) as [d1|].
    + rewrite <- IH. destruct (stopIndex d1 cs); simpl; split; congruence.
    + split; [discriminate | intros [? ?]; discriminate].
Qed.

(** What holds of a detector that records: the counter stays below six. *)
Definition recording (d : detector) : Prop :=
  recordingStarted d = true /\ 0 <= silenceCount d <= 5.

Lemma evaluate_recording (d d' : detector) (c : float) :
  recording d -> evaluate d c = Continue d' -> recording d'.
Proof.
  intros [H Hs] E. destruct (low d c) eqn:Hl.
  - rewrite (evaluate_low _ _ H Hl) in E.
    destruct (Z.ltb_spec 5 (silenceCount d + 1)); [discriminate|].
    injection E as <-. split; simpl; [reflexivity | lia].
  - rewrite (evaluate_reset _ _ H Hl) in E.
    injection E as <-. split; simpl; [reflexivity | lia].
Qed.

Lemma feed_recording (cs : list float) (d d' : detector) :
  recording d -> feed d cs = Continue d' -> recording d'.
Proof.
  revert d. induction cs as [|c cs IH]; intros d Hd; cbn [feed].
  - now intros [= <-].
  - destruct (evaluate d c) as [d1|] eqn:E; [|discriminate].
    apply IH. eapply evaluate_recording; eassumption.
Qed.

(** Low evaluations in a row, enough of them to bring the counter to six,
    stop the detector at the one that brings it there. *)
Lemma low_run_stops (run post : list float) (d : detector) :
  recording d ->
  Forall (fun c => low d c = true) run ->
  6 - silenceCount d <= Z.of_nat (length run) ->
  stopIndex d (run ++ post) = Some (Z.to_nat (5 - silenceCount d)).
Proof.
  revert d. induction run as [|c run IH]; intros d [H Hs] Hlow Hlen.
  - simpl in Hlen. lia.
  - apply Forall_cons in Hlow as [Hc Hrun].
    cbn [app stopIndex]. rewrite (evaluate_low _ _ H Hc).
    destruct (Z.ltb_spec 5 (silenceCount d + 1)) as [H5|H5].
    + f_equal. lia.
    + rewrite IH.
      * cbn [silenceCount fmap option_fmap option_map]. f_equal. lia.
      * split; simpl; [reflexivity | lia].
      * eapply Forall_impl; [exact Hrun|].
        intros x Hx. now rewrite (low_same_max d).
      * cbn [silenceCount length] in *. lia.
Qed.

(** Where a stop comes from: either the counter's current run completes,
    or a later run that starts from a reset does. *)
Lemma stop_origin (cs : list float) (d : detector) (k : nat) :
  recording d ->
  stopIndex d cs = Some k ->
  (exists run post,
      cs = run ++ post /\ Z.of_nat (length run) = 6 - silenceCount d /\
      Forall (fun c => low d c = true) run /\
      Z.of_nat k = 5 - silenceCount d)
  \/
  (exists pre run post d',
      cs = pre ++ run ++ post /\ feed d pre = Continue d' /\
      silenceCount d' = 0 /\ length run = 6%nat /\
      Forall (fun c => low d' c = true) run /\ k = (length pre + 5)%nat).
Proof.
  revert d k. induction cs as [|c cs IH]; intros d k [H Hs]; cbn [stopIndex].
  - discriminate.
  - destruct (low d c) eqn:Hl.
    + rewrite (evaluate_low _ _ H Hl).
      destruct (Z.ltb_spec 5 (silenceCount d + 1)) as [H5|H5].
      * intros [= <-]. left. exists [c], cs.
        repeat split; [simpl; lia | now constructor | simpl; lia].
      * set (d1 := {| noiseFloor := c; maxNoiseFloor := maxNoiseFloor d;
                      recordingStarted := true;
                      silenceCount := silenceCount d + 1 |}).
        destruct (stopIndex d1 cs) as [k1|] eqn:E; [|discriminate].
        intros [= <-].
        assert (Hd1 : recording d1) by (split; simpl; [reflexivity | lia]).
        destruct (IH d1 k1 Hd1 E)
          as [(run & post & -> & Hlen & Hrun & Hk)
             |(pre & run & post & d' & -> & Hf & H0 & Hlen & Hrun & ->)].
        -- left. exists (c :: run), post. cbn [silenceCount d1] in *.
           repeat split; [simpl; lia | | lia].
           constructor; [assumption|].
           eapply Forall_impl; [exact Hrun|].
           intros x Hx. now rewrite <- (low_same_max d d1).
        -- right. exists (c :: pre), run, post, d'.
           repeat split; try assumption.
           cbn [feed]. rewrite (evaluate_low _ _ H Hl).
           destruct (Z.ltb_spec 5 (silenceCount d + 1)); [lia | exact Hf].
    + rewrite (evaluate_reset _ _ H Hl).
      set (d1 := {| noiseFloor := c;
                    maxNoiseFloor := if newMaximum d c then c else maxNoiseFloor d;
                    recordingStarted := true; silenceCount := 0 |}).
      destruct (stopIndex d1 cs) as [k1|] eqn:E; [|discriminate].
      intros [= <-].
      assert (Hd1 : recording d1) by (split; simpl; [reflexivity | lia]).
      assert (Hf1 : feed d [c] = Continue d1).
      { cbn [feed]. now rewrite (evaluate_reset _ _ H Hl). }
      right.
      destruct (IH d1 k1 Hd1 E)
        as [(run & post & -> & Hlen & Hrun & Hk)
           |(pre & run & post & d' & -> & Hf & H0 & Hlen & Hrun & ->)].
      * exists [c], run, post, d1. cbn [silenceCount d1] in *.
        repeat split; try assumption; simpl; lia.
      * exists (c :: pre), run, post, d'.
        repeat split; try assumption.
        change (c :: pre) with ([c] ++ pre). rewrite feed_app, Hf1. exact Hf.
Qed.

(** ** Stopping *)

(** C2. Once recording, Stop is signalled if and only if six window
    evaluations in a row are low (below half of [maxNoiseFloor] without
    setting a new maximum), counted from the start of recording or from
    the last evaluation that reset the counter; it is signalled exactly at
    the sixth of them.  Six low evaluations in a row always end in Stop,
    by the sixth at the latest.  An evaluation that sets a new maximum or
    falls in the hysteresis band resets [silenceCount] to 0. *)
Theorem stop_iff_six_low (d : detector) (cs : list float) (k : nat) :
  recordingStarted d = true -> silenceCount d = 0 ->
  (stopIndex d cs = Some k <->
   exists pre run post d',
     cs = pre ++ run ++ post /\ feed d pre = Continue d' /\
     silenceCount d' = 0 /\ length run = 6%nat /\
     Forall (fun c => low d' c = true) run /\ k = (length pre + 5)%nat)
  /\
  (forall pre run post d',
      cs = pre ++ run ++ post -> feed d pre = Continue d' ->
      length run = 6%nat -> Forall (fun c => low d' c = true) run ->
      exists j, stopIndex d cs = Some j /\ (j <= length pre + 5)%nat)
  /\
  (forall pre c d',
      feed d pre = Continue d' ->
      newMaximum d' c = true \/ inBand d' c = true ->
      exists d'', evaluate d' c = Continue d'' /\ silenceCount d'' = 0).
Proof.
  intros H H0.
  assert (Hd : recording d) by (split; [assumption | lia]).
  split; [split|split].
  - intros Hk.
    destruct (stop_origin cs d k Hd Hk)
      as [(run & post & -> & Hlen & Hrun & Hk')|Hex].
    + exists [], run, post, d. rewrite H0 in *.
      repeat split; try assumption; simpl; lia.
    + exact Hex.
  - intros (pre & run & post & d' & -> & Hf & H0' & Hlen & Hrun & ->).
    rewrite (stopIndex_app _ _ _ _ Hf).
    rewrite low_run_stops; try assumption.
    + rewrite H0'. simpl. f_equal.
    + split; [exact (proj1 (feed_recording _ _ _ Hd Hf)) | lia].
    + rewrite H0', Hlen. lia.
  - intros pre run post d' -> Hf Hlen Hrun.
    pose proof (feed_recording _ _ _ Hd Hf) as Hd'.
    rewrite (stopIndex_app _ _ _ _ Hf).
    rewrite low_run_stops; try assumption.
    + eexists. split; [reflexivity|]. destruct Hd' as [_ ?]. lia.
    + destruct Hd' as [_ ?]. rewrite Hlen. lia.
  - intros pre c d' Hf Hc.
    pose proof (feed_recording _ _ _ Hd Hf) as [Hr _].
    assert (Hl : low d' c = false).
    { unfold low, inBand in *.
      destruct (newMaximum d' c), (belowHalf d' c), Hc; simpl in *; congruence. }
    rewrite (evaluate_reset _ _ Hr Hl). eauto.
Qed.

(** A detector that records, with a maximum of 0.5. *)
Definition recordingAtHalf : detector := {|
  noiseFloor := 0.5%float;
  maxNoiseFloor := 0.5%float;
  recordingStarted := true;
  silenceCount := 0
|}.

Lemma stop_iff_six_low_witness :
  stopIndex recordingAtHalf (replicate 6 0.125%float) = Some 5%nat.
Proof.
  apply (proj1 (stop_iff_six_low recordingAtHalf (replicate 6 0.125%float) 5
                  eq_refl eq_refl)).
  exists [], (replicate 6 0.125%float), [], recordingAtHalf.
  repeat split. repeat constructor.
Defined.

(** ** Onset *)

Lemma zero_not_positive (z : float) :
  (z =? 0)%float = true -> (0 <? z)%float = false.
Proof.
  intros H. now destruct (FloatFacts.eqb_zero z H) as [-> | ->].
Qed.

(** Zero means leave the armed detector armed, over a zero noise floor. *)
Lemma feed_zeros (zeros : list float) (d : detector) :
  recordingStarted d = false -> (noiseFloor d =? 0)%float = true ->
  Forall (fun z => (z =? 0)%float = true) zeros ->
  exists d', feed d zeros = Continue d' /\
             recordingStarted d' = false /\ (noiseFloor d' =? 0)%float = true.
Proof.
  revert d. induction zeros as [|z zeros IH]; intros d Hd Hf Hz.
  - exists d. now repeat split.
  - apply Forall_cons in Hz as [Hz Hzs]. cbn [feed].
    rewrite (evaluate_armed _ _ Hd).
    rewrite (FloatFacts.onset_over_zero _ _ Hf), (zero_not_positive _ Hz).
    apply IH; [reflexivity | exact Hz | exact Hzs].
Qed.

(** C3. An armed detector starts recording at an evaluation with mean [c]
    over the noise floor [f] exactly when [c > f * 1.5], and then takes
    [c] as its maximum; from the initial floor 0, after any number of zero
    means, the first positive mean starts the recording; every evaluation
    that does not stop stores [c] as the noise floor, armed or recording. *)
Theorem onset_rule :
  (forall d c, recordingStarted d = false ->
     exists d', evaluate d c = Continue d' /\
       recordingStarted d' = (noiseFloor d * 1.5 <? c)%float /\
       (recordingStarted d' = true -> maxNoiseFloor d' = c))
  /\
  (forall zeros c,
     Forall (fun z => (z =? 0)%float = true) zeros ->
     (0 <? c)%float = true ->
     (exists d0, feed newDetector zeros = Continue d0 /\
                 recordingStarted d0 = false) /\
     (exists d', feed newDetector (zeros ++ [c]) = Continue d' /\
                 recordingStarted d' = true /\ maxNoiseFloor d' = c))
  /\
  (forall d c d', evaluate d c = Continue d' -> noiseFloor d' = c).
Proof.
  split; [|split].
  - intros d c Hd. rewrite (evaluate_armed _ _ Hd). eexists.
    split; [reflexivity|]. cbn [recordingStarted maxNoiseFloor].
    split; [reflexivity|]. now intros ->.
  - intros zeros c Hz Hc.
    destruct (feed_zeros zeros newDetector eq_refl eq_refl Hz)
      as (d0 & Hf & Hd0 & Hn0).
    split; [now exists d0|].
    rewrite feed_app, Hf. cbn [feed].
    rewrite (evaluate_armed _ _ Hd0), (FloatFacts.onset_over_zero _ _ Hn0), Hc.
    eexists. repeat split.
  - intros d c d'. unfold evaluate, set_noiseFloor.
    destruct (negb (recordingStarted d)).
    + destruct (noiseFloor d * 1.5 <? c)%float; now intros [= <-].
    + destruct (maxNoiseFloor d <? c)%float; [now intros [= <-]|].
      destruct (c <? maxNoiseFloor d * 0.5)%float; [|now intros [= <-]].
      destruct (5 <? silenceCount d + 1); [discriminate | now intros [= <-]].
Qed.

(** ** The flat scenario *)

(** The window mean rises from 0.01 to 0.5 within one evaluation and then
    stays at 0.5 for [n] further evaluations. *)
Definition riseThenFlat (n : nat) : list float :=
  [0.01%float; 0.5%float] ++ replicate n 0.5%float.

(** The detector after the rise: recording, with the maximum at 0.5. *)
Lemma feed_rise : feed newDetector [0.01%float; 0.5%float] = Continue recordingAtHalf.
Proof. reflexivity. Qed.

Lemma feed_flat (n : nat) :
  feed recordingAtHalf (replicate n 0.5%float) = Continue recordingAtHalf.
Proof. induction n as [|n IH]; [reflexivity | exact IH]. Qed.

(** With six flat evaluations after the rise no Stop is signalled, at the
    sixth flat evaluation or anywhere else. *)
Lemma flat_scenario_no_stop :
  stopIndex newDetector (riseThenFlat 6) = None.
Proof. reflexivity. Qed.

(** C5, as the code has it.  In the scenario of a rise from 0.01 to 0.5
    followed by any number of evaluations flat at 0.5, no Stop is
    signalled: the detector keeps recording with [maxNoiseFloor = 0.5] and
    [silenceCount = 0].  A mean that equals [maxNoiseFloor * 0.5] is not a
    low evaluation, the comparison being strict: it leaves [silenceCount]
    at 0. *)
Theorem flat_scenario (n : nat) :
  stopIndex newDetector (riseThenFlat n) = None
  /\ feed newDetector (riseThenFlat n) = Continue recordingAtHalf
  /\ (forall d, recordingStarted d = true ->
        low d (maxNoiseFloor d * 0.5)%float = false /\
        exists d', evaluate d (maxNoiseFloor d * 0.5)%float = Continue d' /\
                   silenceCount d' = 0).
Proof.
  assert (Hf : feed newDetector (riseThenFlat n) = Continue recordingAtHalf).
  { unfold riseThenFlat. rewrite feed_app, feed_rise. apply feed_flat. }
  split; [|split].
  - apply stopIndex_feed. eauto.
  - exact Hf.
  - intros d Hd.
    assert (Hl : low d (maxNoiseFloor d * 0.5)%float = false).
    { unfold low, belowHalf. rewrite FloatFacts.ltb_irrefl. apply andb_false_r. }
    split; [exact Hl|]. rewrite (evaluate_reset _ _ Hd Hl). eauto.
Qed.

End Detector.

(** * The capture loop *)

(** A tick is well formed when its block fills [in]: 512 [int16] samples. *)
Definition wf_tick (t : tick) : Prop :=
  match t with
  | Block block => Z.of_nat (length block) = blockSize /\ Forall is_int16 block
  | _ => True
  end.

Module Capture.
Import Bin BinFacts.

(** The inner loop is the estimator feeding the detector. *)
Lemma processBlock_feed (block : list Z) (e : estimator) (d : detector) :
  processBlock e d block =
  match feed d (snd (runEstimator e block)) with
  | Stop => None
  | Continue d' => Some (fst (runEstimator e block), d')
  end.
Proof.
  revert e d. induction block as [|s rest IH]; intros e d.
  - reflexivity.
  - rewrite Estimator.runEstimator_fst_snoc. cbn [processBlock fst snd].
    destruct (observe e s) as [e1 [c|]]; cbn [fst snd feed].
    + destruct (evaluate d c); [apply IH | reflexivity].
    + apply IH.
Qed.

Lemma runEstimator_app (xs ys : list Z) (e : estimator) :
  runEstimator e (xs ++ ys) =
  (fst (runEstimator (fst (runEstimator e xs)) ys),
   snd (runEstimator e xs) ++ snd (runEstimator (fst (runEstimator e xs)) ys)).
Proof.
  revert e. induction xs as [|s xs IH]; intros e.
  - cbn [app runEstimator fst snd]. now destruct (runEstimator e ys).
  - cbn [app]. rewrite !Estimator.runEstimator_fst_snoc, IH. cbn [fst snd].
    now destruct (snd (observe e s)).
Qed.

Lemma runEstimator_count (samples : list Z) (e : estimator) :
  sampleCount (fst (runEstimator e samples)) =
  sampleCount e + Z.of_nat (length samples).
Proof.
  revert e. induction samples as [|s rest IH]; intros e.
  - cbn [runEstimator fst length]. lia.
  - rewrite Estimator.runEstimator_fst_snoc. cbn [fst].
    rewrite IH, Estimator.observe_fst. cbn [sampleCount length]. lia.
Qed.

(** The detector can only stop in a block that brings the count of
    samples to [windowSize] or beyond. *)
Lemma processBlock_stop_count (block : list Z) (e : estimator) (d : detector) :
  processBlock e d block = None ->
  windowSize <= sampleCount e + Z.of_nat (length block).
Proof.
  revert e d. induction block as [|s rest IH]; intros e d; cbn [processBlock].
  - discriminate.
  - pose proof (Estimator.observe_fst e s) as Hf.
    pose proof (Estimator.observe_snd e s) as Hs.
    destruct (observe e s) as [e1 r]. cbn [fst snd] in Hf, Hs. subst e1.
    cbn [length]. rewrite Nat2Z.inj_succ.
    destruct (Z.leb_spec windowSize (sampleCount e + 1)) as [Hle|Hgt].
    + intros _. lia.
    + subst r. intros H. apply IH in H. cbn [sampleCount] in H. lia.
Qed.

(** The loop over any ticks, from a state that has consumed the samples
    [seen]: what the returned buffer holds. *)
Lemma recordLoop_returns (ticks : list tick) (seen : list (list Z))
  (e : estimator) (d : detector) (buf : list byte) :
  sampleCount e = Z.of_nat (length (concat seen)) ->
  recordLoop ticks (write_int16s (concat seen)) e d = Interrupted buf \/
  recordLoop ticks (write_int16s (concat seen)) e d = Stopped buf ->
  exists blocks : list (list Z),
    buf = write_int16s (concat (seen ++ blocks)) /\
    Forall (fun b => In (Block b) ticks) blocks /\
    (recordLoop ticks (write_int16s (concat seen)) e d = Stopped buf ->
     windowSize <= Z.of_nat (length (concat (seen ++ blocks)))).
Proof.
  revert seen e d. induction ticks as [|t ticks IH]; intros seen e d Hc.
  - cbn [recordLoop]. intros [H|H]; discriminate.
  - destruct t as [|block|]; cbn [recordLoop].
    + intros [[= <-]|H]; [|discriminate].
      exists []. rewrite app_nil_r. repeat split; [constructor | discriminate].
    + rewrite <- write_int16s_app.
      replace (concat seen ++ block) with (concat (seen ++ [block]))
        by (rewrite concat_app; simpl; now rewrite app_nil_r).
      destruct (processBlock e d block) as [[e' d']|] eqn:E.
      * intros H.
        rewrite processBlock_feed in E.
        destruct (feed d (snd (runEstimator e block))); [|discriminate].
        injection E as <- <-.
        destruct (IH (seen ++ [block]) (fst (runEstimator e block)) d0)
          as (blocks & -> & Hin & Hstop); [|exact H|].
        { rewrite runEstimator_count, Hc, concat_app, !length_app.
          simpl. rewrite app_nil_r. lia. }
        exists (block :: blocks). rewrite <- app_assoc in *.
        repeat split; [|exact Hstop].
        constructor; [now left|].
        eapply Forall_impl; [exact Hin|]. intros b Hb. now right.
      * intros [H|[= <-]]; [discriminate|].
        exists [block]. repeat split; [repeat constructor; now left|].
        intros _. apply processBlock_stop_count in E.
        rewrite concat_app, length_app. simpl. rewrite app_nil_r. lia.
    + intros [H|H]; discriminate.
Qed.

(** The stop channel found closed at the first poll: the empty buffer,
    whatever the stream would have delivered, and its encoding. *)
Lemma interrupt_at_first_poll (rest : list tick) :
  recordAudioWithDynamicNoiseFloor (StopClosed :: rest) = Interrupted []
  /\ length (encode []) = 44%nat
  /\ Wav.parse (encode []) = Wav.expected 36 0.
Proof. repeat split. Qed.

Lemma length_concat_blocks (blocks : list (list Z)) :
  Forall (fun b => Z.of_nat (length b) = blockSize) blocks ->
  Z.of_nat (length (concat blocks)) = blockSize * Z.of_nat (length blocks).
Proof.
  induction 1 as [|b blocks Hb _ IH]; [reflexivity|].
  cbn [concat length]. rewrite length_app. lia.
Qed.

(** C9. When the loop returns because the detector stopped, the buffer
    holds the bytes of at least [windowSize] = 32000 samples. *)
Theorem stop_needs_full_window (ticks : list tick) (buf : list byte) :
  recordAudioWithDynamicNoiseFloor ticks = Stopped buf ->
  exists samples : list Z,
    buf = write_int16s samples /\
    windowSize <= Z.of_nat (length samples) /\
    2 * 32000 <= Z.of_nat (length buf).
Proof.
  intros H.
  destruct (recordLoop_returns ticks [] newEstimator newDetector buf eq_refl
              (or_intror H)) as (blocks & -> & _ & Hw).
  specialize (Hw H). cbn [app] in *.
  exists (concat blocks). repeat split; [exact Hw|].
  rewrite length_write_int16s. unfold windowSize in Hw. lia.
Qed.

(** C10. On both exit paths the buffer holds a whole number of 512-sample
    blocks: its length is a multiple of 1024 bytes. *)
Theorem buffer_whole_blocks (ticks : list tick) (buf : list byte) :
  Forall wf_tick ticks ->
  recordAudioWithDynamicNoiseFloor ticks = Interrupted buf \/
  recordAudioWithDynamicNoiseFloor ticks = Stopped buf ->
  exists blocks : list (list Z),
    buf = write_int16s (concat blocks) /\
    Forall (fun b => Z.of_nat (length b) = blockSize) blocks /\
    Z.of_nat (length buf) = 1024 * Z.of_nat (length blocks).
Proof.
  intros Hwf H.
  destruct (recordLoop_returns ticks [] newEstimator newDetector buf eq_refl H)
    as (blocks & -> & Hin & _).
  cbn [app] in *.
  assert (Hb : Forall (fun b => Z.of_nat (length b) = blockSize) blocks).
  { eapply Forall_impl; [exact Hin|]. intros b Hb.
    rewrite Forall_forall in Hwf. exact (proj1 (Hwf _ (proj2 (list_elem_of_In _ _) Hb))). }
  exists blocks. repeat split; [exact Hb|].
  rewrite length_write_int16s, Nat2Z.inj_mul, (length_concat_blocks _ Hb).
  unfold blockSize. lia.
Qed.

(** ** A run that the detector stops *)

Lemma recordLoop_blocks (pre : list (list Z)) (rest : list tick)
  (buf : list byte) (e : estimator) (d d' : detector) :
  feed d (snd (runEstimator e (concat pre))) = Continue d' ->
  recordLoop (map Block pre ++ rest) buf e d =
  recordLoop rest (buf ++ write_int16s (concat pre))
             (fst (runEstimator e (concat pre))) d'.
Proof.
  revert buf e d. induction pre as [|b pre IH]; intros buf e d.
  - cbn [concat runEstimator snd fst feed map app]. intros [= ->].
    change (write_int16s []) with (@nil byte). now rewrite app_nil_r.
  - cbn [concat map app recordLoop].
    rewrite runEstimator_app. cbn [fst snd].
    rewrite Detector.feed_app, processBlock_feed.
    destruct (feed d (snd (runEstimator e b))) as [d1|]; [|discriminate].
    intros H. rewrite (IH _ _ _ H), write_int16s_app. now rewrite app_assoc.
Qed.

(** The loop over the blocks [pre], which leave the detector running, and
    then a block in which it stops. *)
Lemma recordAudio_stops (pre : list (list Z)) (b : list Z) (rest : list tick)
  (d' : detector) :
  feed newDetector (evaluations (concat pre)) = Continue d' ->
  feed newDetector (evaluations (concat pre ++ b)) = Stop ->
  recordAudioWithDynamicNoiseFloor (map Block pre ++ Block b :: rest) =
  Stopped (write_int16s (concat pre ++ b)).
Proof.
  unfold recordAudioWithDynamicNoiseFloor, evaluations. intros Hpre Hb.
  rewrite (recordLoop_blocks _ _ _ _ _ _ Hpre). cbn [recordLoop app].
  rewrite runEstimator_app in Hb. cbn [snd] in Hb.
  rewrite Detector.feed_app, Hpre in Hb.
  rewrite processBlock_feed, Hb. now rewrite write_int16s_app.
Qed.

(** A blip in the very first sample and silence after it: the first
    window mean is positive and starts the recording, the next six are
    zero. *)
Definition silentBlock : list Z := replicate 512 0.
Definition blipBlock : list Z := 1000 :: replicate 511 0.
Definition blipRun : list (list Z) := blipBlock :: replicate 61 silentBlock.

Lemma blip_stops :
  recordAudioWithDynamicNoiseFloor (map Block blipRun ++ [Block silentBlock]) =
  Stopped (write_int16s (concat blipRun ++ silentBlock)).
Proof.
  assert (Hn : Z.of_nat (length (concat blipRun)) = 31744) by reflexivity.
  assert (Hm : Z.of_nat (length (concat blipRun ++ silentBlock)) = 32256)
    by reflexivity.
  pose proof Estimator.W_windowSize as HW. unfold windowSize in HW.
  apply (recordAudio_stops _ _ _ newDetector).
  - rewrite Estimator.evaluations_closed.
    replace (length (concat blipRun) + 1 - W)%nat with 0%nat by lia.
    reflexivity.
  - rewrite Estimator.evaluations_closed.
    replace (length (concat blipRun ++ silentBlock) + 1 - W)%nat
      with (7 + 250)%nat by lia.
    rewrite (seq_app 7 250 0), map_app.
    apply Detector.feed_stop_prefix. vm_compute. reflexivity.
Qed.

Lemma stop_needs_full_window_witness :
  exists samples : list Z,
    write_int16s (concat blipRun ++ silentBlock) = write_int16s samples /\
    windowSize <= Z.of_nat (length samples) /\
    2 * 32000 <= Z.of_nat (length (write_int16s (concat blipRun ++ silentBlock))).
Proof.
  apply (stop_needs_full_window (map Block blipRun ++ [Block silentBlock])).
  exact blip_stops.
Defined.

Lemma buffer_whole_blocks_witness :
  exists blocks : list (list Z),
    write_int16s silentBlock = write_int16s (concat blocks) /\
    Forall (fun b => Z.of_nat (length b) = blockSize) blocks /\
    Z.of_nat (length (write_int16s silentBlock)) = 1024 * Z.of_nat (length blocks).
Proof.
  apply (buffer_whole_blocks [Block silentBlock; StopClosed]).
  - constructor; [|now repeat constructor].
    split; [reflexivity|]. apply Forall_forall.
    intros x Hx. apply elem_of_replicate in Hx as [-> _].
    unfold is_int16. lia.
  - left. vm_compute. reflexivity.
Defined.

(** ** The interrupt and the first read *)

(** A block shorter than the window brings no evaluation. *)
Lemma first_block_continues (block : list Z) :
  Z.of_nat (length block) = blockSize ->
  feed newDetector (snd (runEstimator newEstimator (concat [block]))) =
  Continue newDetector.
Proof.
  intros Hlen. cbn [concat]. rewrite app_nil_r.
  change (snd (runEstimator newEstimator block)) with (evaluations block).
  rewrite Estimator.evaluations_closed.
  pose proof Estimator.W_windowSize as HW.
  unfold windowSize in HW. unfold blockSize in Hlen.
  replace (length block + 1 - W)%nat with 0%nat by lia.
  reflexivity.
Qed.

(** The stop flag set while the first [stream.Read] is in flight: the
    first poll finds the channel open, the block is read and appended,
    and the second poll returns a buffer of 1024 bytes, not an empty
    one. *)
Lemma interrupt_during_first_read :
  let out := recordAudioWithDynamicNoiseFloor [Block silentBlock; StopClosed] in
  out = Interrupted (write_int16s silentBlock)
  /\ out <> Interrupted []
  /\ length (write_int16s silentBlock) = 1024%nat
  /\ length (encode (write_int16s silentBlock)) = 1068%nat
  /\ Wav.parse (encode (write_int16s silentBlock)) = Wav.expected 1060 1024.
Proof.
  cbv zeta.
  assert (H : recordAudioWithDynamicNoiseFloor [Block silentBlock; StopClosed]
              = Interrupted (write_int16s silentBlock))
    by (vm_compute; reflexivity).
  split; [exact H|]. split; [rewrite H; discriminate|].
  split; [vm_compute; reflexivity|].
  split; vm_compute; reflexivity.
Qed.

(** C7, as the code has it.  The stop flag is polled once per block, before
    the read.  When it is found set at the first poll, the loop returns
    the empty buffer without reading, whatever the stream would have
    delivered, and the encoder emits the 44 header bytes alone, with data
    size 0 and chunk size 36.  When it is set only after the first poll,
    while the first read is in flight, that 512-sample block is read and
    appended, and the loop returns its 1024 bytes at the second poll. *)
Theorem interrupt_takes_effect_at_poll (block : list Z) (rest : list tick) :
  Z.of_nat (length block) = blockSize ->
  recordAudioWithDynamicNoiseFloor (StopClosed :: rest) = Interrupted []
  /\ length (encode []) = 44%nat
  /\ Wav.parse (encode []) = Wav.expected 36 0
  /\ recordAudioWithDynamicNoiseFloor (Block block :: StopClosed :: rest) =
       Interrupted (write_int16s block)
  /\ Z.of_nat (length (write_int16s block)) = 1024.
Proof.
  intros Hlen.
  destruct (interrupt_at_first_poll rest) as (H1 & H2 & H3).
  split; [exact H1|]. split; [exact H2|]. split; [exact H3|]. split.
  - unfold recordAudioWithDynamicNoiseFloor.
    change (Block block :: StopClosed :: rest)
      with (map Block [block] ++ StopClosed :: rest).
    rewrite (recordLoop_blocks _ _ _ _ _ _ (first_block_continues block Hlen)).
    cbn [recordLoop concat app]. now rewrite app_nil_r.
  - rewrite length_write_int16s. unfold blockSize in Hlen. lia.
Qed.

Lemma interrupt_takes_effect_at_poll_witness :
  recordAudioWithDynamicNoiseFloor [StopClosed; Block blipBlock] =
    Interrupted []
  /\ length (encode []) = 44%nat
  /\ Wav.parse (encode []) = Wav.expected 36 0
  /\ recordAudioWithDynamicNoiseFloor
       [Block blipBlock; StopClosed; Block blipBlock] =
       Interrupted (write_int16s blipBlock)
  /\ Z.of_nat (length (write_int16s blipBlock)) = 1024.
Proof.
  apply (interrupt_takes_effect_at_poll blipBlock [Block blipBlock]).
  reflexivity.
Defined.

End Capture.

(** * The range of the amplitudes *)

(** A float in the closed interval [0, 1]. *)
Definition unit_range (a : float) : Prop :=
  (0 <=? a)%float = true /\ (a <=? 1)%float = true.

Definition unit_rangeb (a : float) : bool :=
  ((0 <=? a) && (a <=? 1))%float.

(** The amplitudes of [k] and [-k] are in [0, 1], for the [n] integers
    [k] from [from] on. *)
Fixpoint amplitudes_in_range (n : nat) (from : Z) : bool :=
  match n with
  | O => true
  | S n' =>
      unit_rangeb (amplitudeOf from) && unit_rangeb (amplitudeOf (- from))
      && amplitudes_in_range n' (from + 1)
  end.

Module Range.

Lemma unit_rangeb_spec (a : float) : unit_rangeb a = true <-> unit_range a.
Proof. unfold unit_rangeb, unit_range. now rewrite andb_true_iff. Qed.

(** All of -32767 .. 32767, by evaluation. *)
Lemma amplitudes_checked : amplitudes_in_range (Z.to_nat 32768) 0 = true.
Proof. vm_compute. reflexivity. Qed.

Lemma amplitudes_in_range_spec (n : nat) (from k : Z) :
  amplitudes_in_range n from = true -> from <= k < from + Z.of_nat n ->
  unit_range (amplitudeOf k) /\ unit_range (amplitudeOf (- k)).
Proof.
  revert from. induction n as [|n IH]; intros from H Hk; [lia|].
  cbn [amplitudes_in_range] in H.
  apply andb_true_iff in H as [H Hrest]. apply andb_true_iff in H as [Hp Hn].
  destruct (Z.eq_dec k from) as [->|Hne].
  - split; now apply unit_rangeb_spec.
  - apply (IH (from + 1)); [exact Hrest | lia].
Qed.

Lemma amplitude_unit (s : Z) :
  -32767 <= s <= 32767 -> unit_range (amplitudeOf s).
Proof.
  intros Hs.
  assert (Hk : 0 <= Z.abs s < 0 + Z.of_nat (Z.to_nat 32768)) by lia.
  destruct (amplitudes_in_range_spec _ _ _ amplitudes_checked Hk) as [Hp Hn].
  destruct (Z.abs_spec s) as [[_ E]|[_ E]]; rewrite E in *.
  - exact Hp.
  - now rewrite Z.opp_involutive in Hn.
Qed.

(** The most negative sample has an amplitude above 1. *)
Lemma amplitude_above_one :
  is_int16 (-32768) /\ (1 <? amplitudeOf (-32768))%float = true
  /\ (amplitudeOf (-32768) <=? 1)%float = false.
Proof. repeat split; unfold is_int16; lia. Qed.

(** Samples without the most negative one keep every slot in [0, 1]. *)
Lemma slots_unit (samples : list Z) (e : estimator) :
  Forall (fun s => -32767 <= s <= 32767) samples ->
  Forall unit_range (window e) ->
  Forall unit_range (window (fst (runEstimator e samples))).
Proof.
  revert e. induction samples as [|s rest IH]; intros e Hs He.
  - exact He.
  - apply Forall_cons in Hs as [Hs Hrest].
    rewrite Estimator.runEstimator_fst_snoc. cbn [fst].
    apply IH; [exact Hrest|].
    rewrite Estimator.observe_fst. cbn [window].
    apply Forall_insert; [exact He | now apply amplitude_unit].
Qed.

(** Without the most negative sample, the amplitudes and the slots of
    the window all lie in [0, 1]. *)
Lemma amplitudes_and_slots (samples : list Z) :
  Forall (fun s => is_int16 s /\ s <> -32768) samples ->
  Forall (fun s => unit_range (amplitudeOf s)) samples
  /\ Forall unit_range (window (fst (runEstimator newEstimator samples))).
Proof.
  intros H.
  assert (H' : Forall (fun s => -32767 <= s <= 32767) samples).
  { eapply Forall_impl; [exact H|]. unfold is_int16. intros s Hs. simpl in Hs. lia. }
  split.
  - eapply Forall_impl; [exact H'|]. intros s. apply amplitude_unit.
  - apply slots_unit; [exact H'|].
    unfold newEstimator. cbn [window].
    apply Forall_forall. intros x Hx.
    apply elem_of_replicate in Hx as [-> _]. now split.
Qed.

End Range.

(** * Further properties of the container *)

(** [int16(u)] for a [uint16] u: the two's complement reading. *)
Definition int16_of_uint16 (u : Z) : Z :=
  if u <? 32768 then u else u - 65536.

Module Container.
Import Bin BinFacts.

(** X1. For a buffer of any length [n] the stream is the 44 header bytes
    followed by the buffer unchanged, and the size fields hold what
    [uint32] arithmetic leaves of the length: bytes 40-43 read
    [n mod 2^32] and bytes 4-7 read [(36 + n mod 2^32) mod 2^32]; every
    other field is the same for all buffers. *)
Theorem size_fields_modular (audioBuffer : list byte) :
  let n := Z.of_nat (length audioBuffer) in
  Z.of_nat (length (encode audioBuffer)) = 44 + n
  /\ skipn 44 (encode audioBuffer) = audioBuffer
  /\ Wav.parse (encode audioBuffer) =
     Wav.expected ((36 + n mod 2 ^ 32) mod 2 ^ 32) (n mod 2 ^ 32).
Proof.
  intros n. split; [|split].
  - rewrite Wav.length_encode. subst n. lia.
  - apply Wav.encode_payload.
  - apply Wav.parse_encode.
Qed.

Lemma int16_of_uint16_inv (s : Z) :
  is_int16 s -> int16_of_uint16 (uint16 s) = s.
Proof.
  unfold is_int16, int16_of_uint16, uint16. intros Hs.
  change (2 ^ 16) with 65536.
  destruct (Z.lt_ge_cases s 0) as [Hneg|Hpos].
  - replace (s mod 65536) with (s + 65536)
      by (apply Z.mod_unique with (q := -1); lia).
    destruct (Z.ltb_spec (s + 65536) 32768); lia.
  - rewrite Z.mod_small by lia.
    destruct (Z.ltb_spec s 32768); lia.
Qed.

(** X2. What [binary.Write] appends for a block is two bytes per sample,
    and each 16-bit sample is read back, sign included, from its two
    bytes taken little-endian. *)
Theorem samples_round_trip (samples : list Z) (i : nat) (s : Z) :
  Forall is_int16 samples -> samples !! i = Some s ->
  length (write_int16s samples) = (2 * length samples)%nat /\
  int16_of_uint16 (Uint16 (slice (2 * i) 2 (write_int16s samples))) = s.
Proof.
  intros Hs Hi. split; [apply length_write_int16s|].
  rewrite (Wav.read_sample _ _ _ Hi).
  apply int16_of_uint16_inv.
  rewrite Forall_forall in Hs. apply Hs. eapply list_elem_of_lookup_2. exact Hi.
Qed.

Lemma samples_round_trip_witness :
  int16_of_uint16 (Uint16 (slice 2 2 (write_int16s [1; -32768; 32767]))) = -32768.
Proof.
  apply (samples_round_trip [1; -32768; 32767] 1 (-32768)).
  - repeat constructor; unfold is_int16; lia.
  - reflexivity.
Defined.

End Container.

(** * Further properties of the window *)

Module Window.
Import Estimator.

Lemma Inv_run (rest all : list Z) (e : estimator) :
  Inv all e -> Inv (all ++ rest) (fst (runEstimator e rest)).
Proof.
  revert all e. induction rest as [|s rest IH]; intros all e HI.
  - now rewrite app_nil_r.
  - rewrite runEstimator_fst_snoc. cbn [fst].
    change (all ++ s :: rest) with (all ++ [s] ++ rest). rewrite app_assoc.
    apply IH. now apply Inv_observe.
Qed.

(** X3. After any number [N] of samples the counter is [N], the window
    still has [windowSize] slots and the next index [N % windowSize] is
    within it; the slot [i mod windowSize] holds the amplitude of sample
    [i] for each of the last [windowSize] samples, and the slots never
    written still hold 0. *)
Theorem ring_buffer (samples : list Z) :
  let e := fst (runEstimator newEstimator samples) in
  let N := length samples in
  sampleCount e = Z.of_nat N
  /\ Z.of_nat (length (window e)) = windowSize
  /\ 0 <= Z.rem (sampleCount e) windowSize < Z.of_nat (length (window e))
  /\ (forall (i : nat) (a : Z),
        samples !! i = Some a -> (N <= i + W)%nat ->
        window e !! (i mod W)%nat = Some (amplitudeOf a))
  /\ (forall j : nat, (N <= j < W)%nat -> window e !! j = Some 0%float).
Proof.
  intros e N.
  pose proof (Inv_run samples [] newEstimator Inv_new) as [Hc Hl Hs Hf].
  cbn [app] in *. fold e in Hc, Hl, Hs, Hf. fold N in Hc, Hs, Hf.
  pose proof W_pos as HW. pose proof W_windowSize as HWs.
  split; [exact Hc|]. split; [now rewrite Hl|]. split; [|split].
  - rewrite Hc, Hl, HWs.
    rewrite Z.rem_mod_nonneg by lia. apply Z.mod_pos_bound. lia.
  - intros i a Hi HN. now apply Hs.
  - exact Hf.
Qed.

Lemma rotate_full {A} (l : list A) : rotate (length l) l = l.
Proof.
  unfold rotate. destruct l as [|x l]; [reflexivity|].
  rewrite Nat.Div0.mod_same. cbn [drop take]. apply app_nil_r.
Qed.

(** X4. Nothing is evaluated while fewer than [windowSize] samples have
    come in; the [windowSize]-th sample brings the first evaluation,
    which is the mean of the amplitudes of these samples in their order
    of arrival. *)
Theorem first_window (samples : list Z) :
  length samples = W ->
  (forall n : nat, (n < W)%nat -> evaluations (take n samples) = [])
  /\ evaluations samples = [calculateAverage (amplitudeOf <$> samples)].
Proof.
  intros HN. pose proof W_pos as HW. split.
  - intros n Hn. rewrite evaluations_closed, length_take.
    replace (n `min` length samples + 1 - W)%nat with 0%nat by lia.
    reflexivity.
  - rewrite evaluations_closed, HN.
    replace (W + 1 - W)%nat with 1%nat by lia. cbn [seq map].
    unfold windowMean, ringOf, recent.
    rewrite Nat.Div0.mod_0_l, Nat.sub_0_r. cbn [drop].
    rewrite <- HN, firstn_all.
    rewrite <- (length_fmap amplitudeOf samples). now rewrite rotate_full.
Qed.

Lemma first_window_witness :
  evaluations (replicate W 0) =
  [calculateAverage (amplitudeOf <$> replicate W 0)].
Proof.
  apply (first_window (replicate W 0)). apply length_replicate.
Defined.

Lemma abs_opp (x : float) : PrimFloat.abs (PrimFloat.opp x) = PrimFloat.abs x.
Proof.
  apply Prim2SF_inj. rewrite !abs_spec, opp_spec.
  now destruct (Prim2SF x).
Qed.

(** X5. The amplitude does not depend on the sign of the sample:
    [math.Abs] makes [-s] and [s] equal, for every integer [s]. *)
Theorem amplitude_even (s : Z) : amplitudeOf (- s) = amplitudeOf s.
Proof.
  unfold amplitudeOf, float64_of_int. f_equal.
  destruct (Z.ltb_spec (- s) 0) as [H1|H1], (Z.ltb_spec s 0) as [H2|H2];
    try lia.
  - rewrite Z.opp_involutive. apply abs_opp.
  - symmetry. apply abs_opp.
  - replace s with 0 by lia. reflexivity.
Qed.

End Window.

(** * Further properties of the detector *)

(** What every detector reached from [newDetector] satisfies. *)
Definition reachable (d : detector) : Prop :=
  0 <= silenceCount d <= 5 /\
  (recordingStarted d = false ->
   silenceCount d = 0 /\ maxNoiseFloor d = 0%float).

Module Onset.
Import Detector.

Lemma reachable_new : reachable newDetector.
Proof. split; simpl; [lia | auto]. Qed.

Lemma evaluate_reachable (d d' : detector) (c : float) :
  reachable d -> evaluate d c = Continue d' -> reachable d'.
Proof.
  intros [Hs Ha] E. destruct (recordingStarted d) eqn:Hr.
  - assert (Hd : recording d) by (split; assumption).
    destruct (evaluate_recording _ _ _ Hd E) as [Hr' Hs'].
    split; [exact Hs' | congruence].
  - rewrite (evaluate_armed _ _ Hr) in E. injection E as <-.
    destruct (Ha eq_refl) as [H0 Hm]. unfold reachable.
    cbn [silenceCount recordingStarted maxNoiseFloor].
    split; [lia|]. intros ->. now split.
Qed.

Lemma feed_reachable (cs : list float) (d d' : detector) :
  reachable d -> feed d cs = Continue d' -> reachable d'.
Proof.
  revert d. induction cs as [|c cs IH]; intros d Hd; cbn [feed].
  - now intros [= <-].
  - destruct (evaluate d c) as [d1|] eqn:E; [|discriminate].
    apply IH. eapply evaluate_reachable; eassumption.
Qed.

Lemma evaluate_started (d d' : detector) (c : float) :
  recordingStarted d = true -> evaluate d c = Continue d' ->
  recordingStarted d' = true.
Proof.
  intros H. unfold evaluate. rewrite H. cbn [negb].
  destruct (maxNoiseFloor d <? c)%float; [now intros [= <-]|].
  destruct (c <? maxNoiseFloor d * 0.5)%float; [|now intros [= <-]].
  destruct (5 <? silenceCount d + 1); [discriminate | now intros [= <-]].
Qed.

Lemma feed_started (cs : list float) (d d' : detector) :
  recordingStarted d = true -> feed d cs = Continue d' ->
  recordingStarted d' = true.
Proof.
  revert d. induction cs as [|c cs IH]; intros d Hd; cbn [feed].
  - now intros [= <-].
  - destruct (evaluate d c) as [d1|] eqn:E; [|discriminate].
    apply IH. eapply evaluate_started; eassumption.
Qed.

Lemma evaluate_noiseFloor (d d' : detector) (c : float) :
  evaluate d c = Continue d' -> noiseFloor d' = c.
Proof.
  unfold evaluate, set_noiseFloor.
  destruct (negb (recordingStarted d)).
  - destruct (noiseFloor d * 1.5 <? c)%float; now intros [= <-].
  - destruct (maxNoiseFloor d <? c)%float; [now intros [= <-]|].
    destruct (c <? maxNoiseFloor d * 0.5)%float; [|now intros [= <-]].
    destruct (5 <? silenceCount d + 1); [discriminate | now intros [= <-]].
Qed.

Lemma feed_last (cs : list float) (d d' : detector) (c : float) :
  feed d (cs ++ [c]) = Continue d' -> noiseFloor d' = c.
Proof.
  rewrite feed_app. destruct (feed d cs) as [d1|]; [|discriminate].
  cbn [feed]. destruct (evaluate d1 c) as [d2|] eqn:E; [|discriminate].
  intros [= <-]. exact (evaluate_noiseFloor _ _ _ E).
Qed.

(** X6. Whatever window means have been evaluated without a Stop, the
    detector holds a silence count between 0 and 5; while it is still
    armed the count is 0 and the maximum is still 0; its noise floor is
    the last mean evaluated; and once it records it records for good:
    no later evaluation clears [recordingStarted]. *)
Theorem detector_invariants (cs : list float) (d : detector) :
  feed newDetector cs = Continue d ->
  0 <= silenceCount d <= 5
  /\ (recordingStarted d = false ->
      silenceCount d = 0 /\ maxNoiseFloor d = 0%float)
  /\ (forall c, last cs = Some c -> noiseFloor d = c)
  /\ (forall more d',
        recordingStarted d = true -> feed d more = Continue d' ->
        recordingStarted d' = true).
Proof.
  intros Hf.
  destruct (feed_reachable _ _ _ reachable_new Hf) as [Hs Ha].
  split; [exact Hs|]. split; [exact Ha|]. split.
  - intros c Hc.
    destruct cs as [|c0 cs0] using rev_ind; [discriminate|].
    rewrite last_snoc in Hc. injection Hc as ->.
    eapply feed_last. exact Hf.
  - intros more d' Hr Hm. eapply feed_started; eassumption.
Qed.

Lemma detector_invariants_witness :
  0 <= silenceCount
         {| noiseFloor := 0.125; maxNoiseFloor := 0.5;
            recordingStarted := true; silenceCount := 1 |} <= 5.
Proof.
  apply (detector_invariants [0.5%float; 0.125%float]). reflexivity.
Defined.

(** The distance to a stop: six low evaluations less the ones counted. *)
Lemma stop_distance (cs : list float) (d : detector) (k : nat) :
  reachable d -> stopIndex d cs = Some k ->
  (if recordingStarted d then 5 - silenceCount d else 6) <= Z.of_nat k.
Proof.
  revert d k. induction cs as [|c cs IH]; intros d k Hd; cbn [stopIndex].
  - discriminate.
  - destruct (evaluate d c) as [d1|] eqn:E.
    + destruct (stopIndex d1 cs) as [k1|] eqn:E1; [|discriminate].
      intros [= <-].
      pose proof (IH d1 k1 (evaluate_reachable _ _ _ Hd E) E1) as H1.
      destruct Hd as [Hs Ha].
      destruct (recordingStarted d) eqn:Hr.
      * rewrite (evaluate_started _ _ _ Hr E) in H1.
        destruct (low d c) eqn:Hl.
        -- rewrite (evaluate_low _ _ Hr Hl) in E.
           destruct (5 <? silenceCount d + 1); [discriminate|].
           injection E as <-. cbn [silenceCount] in H1. lia.
        -- rewrite (evaluate_reset _ _ Hr Hl) in E.
           injection E as <-. cbn [silenceCount] in H1. lia.
      * rewrite (evaluate_armed _ _ Hr) in E. injection E as <-.
        destruct (Ha eq_refl) as [H0 _].
        cbn [recordingStarted silenceCount] in H1.
        destruct (noiseFloor d * 1.5 <? c)%float; lia.
    + intros [= <-]. destruct Hd as [Hs Ha].
      destruct (recordingStarted d) eqn:Hr.
      * destruct (low d c) eqn:Hl.
        -- rewrite (evaluate_low _ _ Hr Hl) in E.
           destruct (Z.ltb_spec 5 (silenceCount d + 1)); [lia | discriminate].
        -- rewrite (evaluate_reset _ _ Hr Hl) in E. discriminate.
      * rewrite (evaluate_armed _ _ Hr) in E. discriminate.
Qed.

Lemma stopIndex_lt (cs : list float) (d : detector) (k : nat) :
  stopIndex d cs = Some k -> (k < length cs)%nat.
Proof.
  revert d k. induction cs as [|c cs IH]; intros d k; cbn [stopIndex].
  - discriminate.
  - destruct (evaluate d c) as [d1|].
    + destruct (stopIndex d1 cs) as [k1|] eqn:E; [|discriminate].
      intros [= <-]. apply IH in E. simpl. lia.
    + intros [= <-]. simpl. lia.
Qed.

(** X7. An armed detector never signals Stop, and from the start no Stop
    comes before the seventh evaluation: one evaluation to start the
    recording and six low ones after it. *)
Theorem earliest_stop (cs : list float) (k : nat) :
  stopIndex newDetector cs = Some k ->
  (6 <= k)%nat /\ (7 <= length cs)%nat
  /\ (forall d c, recordingStarted d = false -> evaluate d c <> Stop).
Proof.
  intros H.
  pose proof (stop_distance _ _ _ reachable_new H) as Hk.
  pose proof (stopIndex_lt _ _ _ H) as Hl.
  cbn [recordingStarted newDetector] in Hk.
  split; [lia|]. split; [lia|].
  intros d c Hd. now rewrite (evaluate_armed _ _ Hd).
Qed.

Lemma earliest_stop_witness :
  (6 <= 6)%nat /\
  (7 <= length (0.5%float :: replicate 6 0.125%float))%nat
  /\ (forall d c, recordingStarted d = false -> evaluate d c <> Stop).
Proof.
  apply (earliest_stop (0.5%float :: replicate 6 0.125%float) 6).
  reflexivity.
Defined.

Lemma SFcompare_antisym (x y : spec_float) :
  SFcompare y x = option_map CompOpp (SFcompare x y).
Proof.
  destruct x as [sx|sx| |sx mx ex], y as [sy|sy| |sy my ey];
    try destruct sx; try destruct sy; try reflexivity; cbn [SFcompare option_map];
    f_equal; rewrite (Z.compare_antisym ex ey);
    destruct (ex ?= ey); cbn [CompOpp]; try reflexivity;
    change (Pos.compare_cont Eq my mx)
      with (Pos.compare_cont (CompOpp Eq) my mx);
    rewrite <- (Pos.compare_cont_antisym mx my Eq);
    now destruct (Pos.compare_cont Eq mx my).
Qed.

(** [<] on floats is asymmetric. *)
Lemma ltb_asym (x y : float) : (x <? y)%float = true -> (y <? x)%float = false.
Proof.
  rewrite !FloatAxioms.ltb_spec. unfold SFltb.
  rewrite (SFcompare_antisym (Prim2SF x) (Prim2SF y)).
  now destruct (SFcompare (Prim2SF x) (Prim2SF y)) as [[]|].
Qed.

(** X8. While recording, [maxNoiseFloor] is a running maximum: an
    evaluation that does not stop never lowers it, and leaves it not
    below the mean just evaluated. *)
Theorem running_maximum (d d' : detector) (c : float) :
  recordingStarted d = true -> evaluate d c = Continue d' ->
  (maxNoiseFloor d' <? maxNoiseFloor d)%float = false
  /\ (maxNoiseFloor d' <? c)%float = false
  /\ (maxNoiseFloor d' = maxNoiseFloor d \/ maxNoiseFloor d' = c).
Proof.
  intros Hr E. destruct (low d c) eqn:Hl.
  - rewrite (evaluate_low _ _ Hr Hl) in E.
    destruct (5 <? silenceCount d + 1); [discriminate|].
    injection E as <-. cbn [maxNoiseFloor].
    unfold low, newMaximum in Hl. apply andb_true_iff in Hl as [Hn _].
    apply negb_true_iff in Hn.
    split; [apply FloatFacts.ltb_irrefl|]. split; [exact Hn | now left].
  - rewrite (evaluate_reset _ _ Hr Hl) in E. injection E as <-.
    cbn [maxNoiseFloor]. unfold newMaximum.
    destruct (maxNoiseFloor d <? c)%float eqn:Hm.
    + split; [now apply ltb_asym|].
      split; [apply FloatFacts.ltb_irrefl | now right].
    + split; [apply FloatFacts.ltb_irrefl|]. split; [exact Hm | now left].
Qed.

Lemma running_maximum_witness :
  (0.75 <? 0.5)%float = false /\ (0.75 <? 0.75)%float = false
  /\ (0.75%float = 0.5%float \/ 0.75%float = 0.75%float).
Proof.
  apply (running_maximum Detector.recordingAtHalf
           {| noiseFloor := 0.75; maxNoiseFloor := 0.75;
              recordingStarted := true; silenceCount := 0 |} 0.75%float);
    reflexivity.
Defined.

End Onset.

(** * Further properties of the capture loop *)

(** A tick that is not a block of samples other than zero. *)
Definition silent_tick (t : tick) : Prop :=
  match t with
  | Block block => Forall (fun s => s = 0) block
  | _ => True
  end.

Module Loop.
Import Bin BinFacts Capture.

Lemma feed_evaluations_app (xs ys : list Z) (d : detector) :
  feed newDetector (evaluations xs) = Continue d ->
  feed newDetector (evaluations (xs ++ ys)) =
  feed d (snd (runEstimator (fst (runEstimator newEstimator xs)) ys)).
Proof.
  unfold evaluations. intros H.
  rewrite runEstimator_app. cbn [snd]. now rewrite Detector.feed_app, H.
Qed.

Lemma concat_snoc (seen : list (list Z)) (block : list Z) :
  concat (seen ++ [block]) = concat seen ++ block.
Proof. rewrite concat_app. simpl. now rewrite app_nil_r. Qed.

(** The loop as the detector fed with the evaluations of the samples
    read: what a returned buffer tells about them. *)
Lemma recordLoop_trace (ticks : list tick) (seen : list (list Z))
  (e : estimator) (d : detector) (buf : list byte) :
  e = fst (runEstimator newEstimator (concat seen)) ->
  feed newDetector (evaluations (concat seen)) = Continue d ->
  (recordLoop ticks (write_int16s (concat seen)) e d = Stopped buf ->
   exists blocks,
     Forall (fun b => In (Block b) ticks) blocks /\
     buf = write_int16s (concat (seen ++ blocks)) /\
     feed newDetector (evaluations (concat (seen ++ blocks))) = Stop)
  /\
  (recordLoop ticks (write_int16s (concat seen)) e d = Interrupted buf ->
   exists blocks d',
     Forall (fun b => In (Block b) ticks) blocks /\
     buf = write_int16s (concat (seen ++ blocks)) /\
     feed newDetector (evaluations (concat (seen ++ blocks))) = Continue d').
Proof.
  revert seen e d. induction ticks as [|t ticks IH]; intros seen e d He Hd.
  - cbn [recordLoop]. split; discriminate.
  - destruct t as [|block|]; cbn [recordLoop].
    + split; [discriminate|]. intros [= <-].
      exists [], d. rewrite app_nil_r. now repeat split.
    + rewrite <- write_int16s_app, <- concat_snoc, processBlock_feed.
      pose proof (feed_evaluations_app (concat seen) block d Hd) as Hb.
      rewrite <- He, <- concat_snoc in Hb.
      destruct (feed d (snd (runEstimator e block))) as [d1|].
      * destruct (IH (seen ++ [block]) (fst (runEstimator e block)) d1)
          as [IHs IHi].
        { rewrite concat_snoc, runEstimator_app, He. reflexivity. }
        { exact Hb. }
        split.
        -- intros H. destruct (IHs H) as (blocks & Hin & -> & Hf).
           exists (block :: blocks). rewrite <- app_assoc in *.
           repeat split; [|exact Hf].
           constructor; [now left|].
           eapply Forall_impl; [exact Hin|]. intros b Hb'. now right.
        -- intros H. destruct (IHi H) as (blocks & d' & Hin & -> & Hf).
           exists (block :: blocks), d'. rewrite <- app_assoc in *.
           repeat split; [|exact Hf].
           constructor; [now left|].
           eapply Forall_impl; [exact Hin|]. intros b Hb'. now right.
      * split; [|discriminate]. intros [= <-].
        exists [block]. repeat split; [|exact Hb].
        constructor; [now left | constructor].
    + split; discriminate.
Qed.

Lemma feed_stop_index (d : detector) (cs : list float) :
  feed d cs = Stop -> exists k, stopIndex d cs = Some k.
Proof.
  intros H. destruct (stopIndex d cs) as [k|] eqn:E; [eauto|].
  apply Detector.stopIndex_feed in E as [d' E]. congruence.
Qed.

(** X9. When the loop returns because the detector stopped, at least
    [windowSize + 6] samples have been read and are in the buffer: the
    window had to fill, and seven evaluations had to follow one another. *)
Theorem stop_after_seven (ticks : list tick) (buf : list byte) :
  recordAudioWithDynamicNoiseFloor ticks = Stopped buf ->
  exists samples : list Z,
    buf = write_int16s samples /\
    windowSize + 6 <= Z.of_nat (length samples) /\
    (7 <= length (evaluations samples))%nat.
Proof.
  intros H.
  destruct (recordLoop_trace ticks [] newEstimator newDetector buf
              eq_refl eq_refl) as [Hs _].
  destruct (Hs H) as (blocks & _ & -> & Hf). cbn [app] in *.
  exists (concat blocks). split; [reflexivity|].
  destruct (feed_stop_index _ _ Hf) as [k Hk].
  pose proof (Onset.stop_distance _ _ _ Onset.reachable_new Hk) as H6.
  pose proof (Onset.stopIndex_lt _ _ _ Hk) as Hl.
  cbn [recordingStarted newDetector] in H6.
  assert (H7 : (7 <= length (evaluations (concat blocks)))%nat) by lia.
  split; [|exact H7].
  rewrite Estimator.evaluations_closed, length_map, length_seq in H7.
  pose proof Estimator.W_windowSize. lia.
Qed.

Lemma stop_after_seven_witness :
  exists samples : list Z,
    write_int16s (concat blipRun ++ silentBlock) = write_int16s samples /\
    windowSize + 6 <= Z.of_nat (length samples) /\
    (7 <= length (evaluations samples))%nat.
Proof.
  apply (stop_after_seven (map Block blipRun ++ [Block silentBlock])).
  exact blip_stops.
Defined.

(** X10. When the stop channel is found closed after some blocks were
    read, none of which stopped the detector, the loop returns the bytes
    of exactly these blocks, in the order read; what the stream holds
    after that is not read. *)
Theorem interrupt_returns_all (pre : list (list Z)) (rest : list tick)
  (d : detector) :
  feed newDetector (evaluations (concat pre)) = Continue d ->
  recordAudioWithDynamicNoiseFloor (map Block pre ++ StopClosed :: rest) =
  Interrupted (write_int16s (concat pre)).
Proof.
  intros H. unfold recordAudioWithDynamicNoiseFloor.
  now rewrite (recordLoop_blocks _ _ _ _ _ _ H).
Qed.

Lemma no_evaluation_yet :
  feed newDetector (evaluations (concat [blipBlock; silentBlock])) =
  Continue newDetector.
Proof.
  rewrite Estimator.evaluations_closed.
  assert (Hn : Z.of_nat (length (concat [blipBlock; silentBlock])) = 1024)
    by reflexivity.
  pose proof Estimator.W_windowSize as HW. unfold windowSize in HW.
  replace (length (concat [blipBlock; silentBlock]) + 1 - W)%nat
    with 0%nat by lia.
  reflexivity.
Qed.

Lemma interrupt_returns_all_witness :
  recordAudioWithDynamicNoiseFloor
    (map Block [blipBlock; silentBlock] ++ [StopClosed; Block blipBlock]) =
  Interrupted (write_int16s (concat [blipBlock; silentBlock])).
Proof.
  apply (interrupt_returns_all [blipBlock; silentBlock] [Block blipBlock]
           newDetector).
  exact no_evaluation_yet.
Defined.

(** X11. When the detector stops within a block, the loop returns with
    that block in the buffer in full, after the blocks read before it,
    and reads nothing further. *)
Theorem stop_keeps_block (pre : list (list Z)) (b : list Z)
  (rest : list tick) (d : detector) :
  feed newDetector (evaluations (concat pre)) = Continue d ->
  feed newDetector (evaluations (concat pre ++ b)) = Stop ->
  recordAudioWithDynamicNoiseFloor (map Block pre ++ Block b :: rest) =
  Stopped (write_int16s (concat pre) ++ write_int16s b).
Proof.
  intros Hpre Hb. rewrite <- write_int16s_app.
  now apply (recordAudio_stops pre b rest d).
Qed.

(** X12. A read error after some blocks, none of which stopped the
    detector, is fatal: no buffer is returned. *)
Theorem read_error_fatal (pre : list (list Z)) (rest : list tick)
  (d : detector) :
  feed newDetector (evaluations (concat pre)) = Continue d ->
  recordAudioWithDynamicNoiseFloor (map Block pre ++ ReadError :: rest) = Fatal.
Proof.
  intros H. unfold recordAudioWithDynamicNoiseFloor.
  now rewrite (recordLoop_blocks _ _ _ _ _ _ H).
Qed.

Lemma read_error_fatal_witness :
  recordAudioWithDynamicNoiseFloor
    (map Block [blipBlock; silentBlock] ++ [ReadError; StopClosed]) = Fatal.
Proof.
  apply (read_error_fatal [blipBlock; silentBlock] [StopClosed] newDetector).
  exact no_evaluation_yet.
Defined.

Lemma blip_armed :
  feed newDetector (evaluations (concat blipRun)) = Continue newDetector.
Proof.
  rewrite Estimator.evaluations_closed.
  assert (Hn : Z.of_nat (length (concat blipRun)) = 31744) by reflexivity.
  pose proof Estimator.W_windowSize as HW. unfold windowSize in HW.
  replace (length (concat blipRun) + 1 - W)%nat with 0%nat by lia.
  reflexivity.
Qed.

Lemma blip_feed_stop :
  feed newDetector (evaluations (concat blipRun ++ silentBlock)) = Stop.
Proof.
  rewrite Estimator.evaluations_closed.
  assert (Hm : Z.of_nat (length (concat blipRun ++ silentBlock)) = 32256)
    by reflexivity.
  pose proof Estimator.W_windowSize as HW. unfold windowSize in HW.
  replace (length (concat blipRun ++ silentBlock) + 1 - W)%nat
    with (7 + 250)%nat by lia.
  rewrite (seq_app 7 250 0), map_app.
  apply Detector.feed_stop_prefix. vm_compute. reflexivity.
Qed.

Lemma stop_keeps_block_witness :
  recordAudioWithDynamicNoiseFloor
    (map Block blipRun ++ [Block silentBlock; Block blipBlock; ReadError]) =
  Stopped (write_int16s (concat blipRun) ++ write_int16s silentBlock).
Proof.
  apply (stop_keeps_block blipRun silentBlock [Block blipBlock; ReadError]
           newDetector).
  - exact blip_armed.
  - exact blip_feed_stop.
Defined.

(** ** Digital silence *)

Lemma sum_zeros (l : list float) (acc : float) :
  acc = 0%float -> Forall (fun a => a = 0%float) l ->
  fold_left (fun sum v => (sum + v)%float) l acc = 0%float.
Proof.
  revert acc. induction l as [|a l IH]; intros acc Hacc Hl; [exact Hacc|].
  apply Forall_cons in Hl as [-> Hl]. cbn [fold_left].
  apply IH; [now rewrite Hacc | exact Hl].
Qed.

Lemma mean_zeros (l : list float) :
  length l = W -> Forall (fun a => a = 0%float) l ->
  calculateAverage l = 0%float.
Proof.
  intros Hlen Hl. unfold calculateAverage.
  rewrite (sum_zeros l 0%float eq_refl Hl), Hlen, Estimator.W_windowSize.
  reflexivity.
Qed.

Lemma ring_zeros (samples : list Z) (k : nat) :
  Forall (fun s => s = 0) samples ->
  Forall (fun a => a = 0%float) (ringOf samples k).
Proof.
  intros H. unfold ringOf. apply Forall_forall. intros a Ha.
  apply elem_of_rotate in Ha. revert a Ha. apply Forall_forall.
  unfold recent. apply Forall_fmap, Forall_take, Forall_drop.
  eapply Forall_impl; [exact H|]. now intros s ->.
Qed.

Lemma evaluations_zeros (samples : list Z) :
  Forall (fun s => s = 0) samples ->
  Forall (fun c => c = 0%float) (evaluations samples).
Proof.
  intros H. rewrite Estimator.evaluations_closed.
  apply Forall_forall. intros c Hc.
  apply list_elem_of_fmap in Hc as (k & -> & Hk).
  apply list_elem_of_In, in_seq in Hk.
  unfold windowMean. apply mean_zeros; [|now apply ring_zeros].
  unfold ringOf. rewrite length_rotate. apply Estimator.recent_length. lia.
Qed.

Lemma zeros_stay_armed (samples : list Z) :
  Forall (fun s => s = 0) samples ->
  exists d, feed newDetector (evaluations samples) = Continue d /\
            recordingStarted d = false.
Proof.
  intros H.
  destruct (Detector.feed_zeros (evaluations samples) newDetector
              eq_refl eq_refl) as (d & Hf & Hd & _).
  - eapply Forall_impl; [exact (evaluations_zeros _ H)|].
    now intros c ->.
  - now exists d.
Qed.

(** X13. Digital silence triggers nothing: when every sample read is 0,
    every window mean is exactly 0, the detector stays armed, and the
    loop is never ended by the detector. *)
Theorem silence_never_triggers (ticks : list tick) :
  Forall silent_tick ticks ->
  (forall buf, recordAudioWithDynamicNoiseFloor ticks <> Stopped buf)
  /\ (forall blocks : list (list Z),
        Forall (fun b => In (Block b) ticks) blocks ->
        Forall (fun c => c = 0%float) (evaluations (concat blocks)) /\
        exists d, feed newDetector (evaluations (concat blocks)) = Continue d /\
                  recordingStarted d = false).
Proof.
  intros Hs.
  assert (Hz : forall blocks : list (list Z),
             Forall (fun b => In (Block b) ticks) blocks ->
             Forall (fun s => s = 0) (concat blocks)).
  { intros blocks Hin. apply Forall_concat.
    eapply Forall_impl; [exact Hin|]. intros b Hb.
    rewrite Forall_forall in Hs.
    exact (Hs (Block b) (proj2 (list_elem_of_In _ _) Hb)). }
  split.
  - intros buf H.
    destruct (recordLoop_trace ticks [] newEstimator newDetector buf
                eq_refl eq_refl) as [Ht _].
    destruct (Ht H) as (blocks & Hin & _ & Hf). cbn [app] in Hf.
    destruct (zeros_stay_armed _ (Hz blocks Hin)) as (d & Hd & _).
    congruence.
  - intros blocks Hin. split.
    + apply evaluations_zeros. now apply Hz.
    + apply zeros_stay_armed. now apply Hz.
Qed.

Lemma silence_never_triggers_witness :
  Forall (fun c => c = 0%float) (evaluations (concat [silentBlock])) /\
  exists d, feed newDetector (evaluations (concat [silentBlock])) = Continue d /\
            recordingStarted d = false.
Proof.
  apply (silence_never_triggers [Block silentBlock; StopClosed]).
  - constructor; [|now repeat constructor].
    apply Forall_forall. intros x Hx.
    now apply elem_of_replicate in Hx as [-> _].
  - constructor; [now left | constructor].
Defined.

End Loop.

(** * Rounding: bounds on binary64 sums and quotients *)

Module Rounding.

Definition flag (mrs : shr_record) : bool := shr_r mrs || shr_s mrs.

Lemma digits2_bounds (m : positive) :
  2 ^ (Zpos (digits2_pos m) - 1) <= Zpos m < 2 ^ Zpos (digits2_pos m).
Proof.
  induction m as [m IH|m IH|]; cbn [digits2_pos].
  - rewrite Pos2Z.inj_succ.
    replace (Z.succ (Z.pos (digits2_pos m)) - 1) with (Z.succ (Z.pos (digits2_pos m) - 1)) by lia.
    rewrite !Z.pow_succ_r by lia. lia.
  - rewrite Pos2Z.inj_succ.
    replace (Z.succ (Z.pos (digits2_pos m)) - 1) with (Z.succ (Z.pos (digits2_pos m) - 1)) by lia.
    rewrite !Z.pow_succ_r by lia. lia.
  - simpl. lia.
Qed.

(** [b] is [a] shifted right by [k] bits, with the lost bits flagged. *)
Definition shifted (k : Z) (a b : shr_record) : Prop :=
  0 <= shr_m b /\ 2 ^ k * shr_m b <= shr_m a /\
  (flag b = true -> 2 ^ k * shr_m b < shr_m a \/ flag a = true).

Lemma shifted_refl (a : shr_record) : 0 <= shr_m a -> shifted 0 a a.
Proof. intros H. unfold shifted. simpl. repeat split; try lia. auto. Qed.

Lemma shifted_trans (j k : Z) (a b c : shr_record) :
  0 <= j -> 0 <= k -> shifted j a b -> shifted k b c -> shifted (j + k) a c.
Proof.
  intros Hj Hk (Hb & Hab & Fab) (Hc & Hbc & Fbc).
  unfold shifted. rewrite Z.pow_add_r by assumption.
  assert (0 < 2 ^ j) by (apply Z.pow_pos_nonneg; lia).
  assert (0 < 2 ^ k) by (apply Z.pow_pos_nonneg; lia).
  repeat split; [assumption | nia |].
  intros Hf. destruct (Fbc Hf) as [Hlt|Hfb].
  - left. nia.
  - destruct (Fab Hfb) as [Hlt|Hfa]; [left; nia | now right].
Qed.

Lemma shr_1_shifted (a : shr_record) : 0 <= shr_m a -> shifted 1 a (shr_1 a).
Proof.
  destruct a as [m r s]. cbn [shr_m]. intros Hm. unfold shifted, flag.
  destruct m as [|[p|p|]|p]; cbn [shr_1 shr_m shr_r shr_s]; try lia;
    (repeat split; [lia | lia |]); cbn [orb];
    intros H; first [left; lia | right; exact H].
Qed.

Lemma iter_pos_shifted (p : positive) (a : shr_record) :
  0 <= shr_m a -> shifted (Zpos p) a (SpecFloat.iter_pos shr_1 p a).
Proof.
  revert a. induction p as [p IH|p IH|]; intros a Ha; cbn [SpecFloat.iter_pos].
  - pose proof (shr_1_shifted a Ha) as H1.
    pose proof (IH _ (proj1 H1)) as H2.
    pose proof (IH _ (proj1 H2)) as H3.
    replace (Z.pos p~1) with (1 + Z.pos p + Z.pos p) by lia.
    eapply shifted_trans; [lia | lia | | exact H3].
    eapply shifted_trans; [lia | lia | exact H1 | exact H2].
  - pose proof (IH _ Ha) as H2.
    pose proof (IH _ (proj1 H2)) as H3.
    replace (Z.pos p~0) with (Z.pos p + Z.pos p) by lia.
    eapply shifted_trans; [lia | lia | exact H2 | exact H3].
  - now apply shr_1_shifted.
Qed.

(** The spec floats that are zero or positive and finite, and their value
    in units of [2^-1074], the least positive binary64 number. *)
Definition nn (x : spec_float) : bool :=
  match x with
  | S754_zero _ => true
  | S754_finite false _ e => -1074 <=? e
  | _ => false
  end.

Definition units (x : spec_float) : Z :=
  match x with
  | S754_finite _ m e => Zpos m * 2 ^ (e + 1074)
  | _ => 0
  end.

Lemma pow2_pos (k : Z) : 0 <= k -> 0 < 2 ^ k.
Proof. intros. apply Z.pow_pos_nonneg; lia. Qed.

Lemma pow2_mono (a b : Z) : 0 <= a <= b -> 2 ^ a <= 2 ^ b.
Proof. intros. apply Z.pow_le_mono_r; lia. Qed.

Lemma grid_step (q i P Q : Z) :
  0 < P -> 0 < Q -> q * P < i * (Q * P) -> (q + 1) * P <= i * (Q * P).
Proof. intros HP HQ H. assert (q < i * Q) by nia. nia. Qed.

Lemma flag_of_loc (m : Z) (l : location) :
  shr_m (shr_record_of_loc m l) = m /\
  (flag (shr_record_of_loc m l) = true -> l <> loc_Exact).
Proof. destruct l as [|[]]; cbn; split; congruence. Qed.

Lemma loc_of_flag (mrs : shr_record) :
  loc_of_shr_record mrs <> loc_Exact -> flag mrs = true.
Proof. destruct mrs as [m [] []]; cbn; congruence. Qed.

Lemma round_nearest_even_cases (q : Z) (l : location) :
  round_nearest_even q l = q \/
  (round_nearest_even q l = q + 1 /\ l <> loc_Exact).
Proof.
  destruct l as [|[]]; cbn;
    [now left | | now left | right; split; [reflexivity | discriminate]].
  destruct (Z.even q); [now left | right; split; [reflexivity | discriminate]].
Qed.

Lemma shr_fexp_spec (m e : Z) (l : location) (mrs' : shr_record) (e' : Z) :
  0 <= m ->
  shr_fexp prec emax m e l = (mrs', e') ->
  exists n, 0 <= n /\ e' = e + n /\
            shifted n (shr_record_of_loc m l) mrs' /\
            (0 < n -> e' = fexp prec emax (Zdigits2 m + e)) /\
            (n = 0 -> mrs' = shr_record_of_loc m l).
Proof.
  intros Hm. unfold shr_fexp, shr.
  pose proof (proj1 (flag_of_loc m l)) as Hrec.
  destruct (fexp prec emax (Zdigits2 m + e) - e) as [|p|p] eqn:En;
    intros [= <- <-].
  - exists 0.
    split; [lia | split; [lia | split; [apply shifted_refl; lia |]]].
    split; [lia | reflexivity].
  - exists (Zpos p).
    split; [lia | split; [lia | split; [apply iter_pos_shifted; lia |]]].
    split; [intros _; lia | intros; lia].
  - exists 0.
    split; [lia | split; [lia | split; [apply shifted_refl; lia |]]].
    split; [lia | reflexivity].
Qed.

(** Rounding a nonnegative value that is at most [i] units of 1, for an
    integer [i] below [2^53], gives a float that is at most [i]. *)
Lemma binary_round_aux_bound (mx ex : Z) (lx : location) (i : Z) :
  0 <= mx -> -1074 <= ex -> 0 <= i < 2 ^ 53 ->
  mx * 2 ^ (ex + 1074) <= i * 2 ^ 1074 ->
  (lx <> loc_Exact -> ex <= 0 /\ mx * 2 ^ (ex + 1074) < i * 2 ^ 1074) ->
  nn (binary_round_aux prec emax false mx ex lx) = true /\
  units (binary_round_aux prec emax false mx ex lx) <= i * 2 ^ 1074.
Proof.
  intros Hmx Hex Hi Hle Hlx. unfold binary_round_aux.
  destruct (shr_fexp prec emax mx ex lx) as [mrs' e'] eqn:E1.
  destruct (shr_fexp_spec _ _ _ _ _ Hmx E1)
    as (n1 & Hn1 & He' & (Hq & Hqm & Hqf) & Hfexp & Hsame).
  destruct (flag_of_loc mx lx) as [Hrm Hrf]. rewrite Hrm in *.
  set (q := shr_m mrs') in *.
  set (m1 := round_nearest_even q (loc_of_shr_record mrs')).
  assert (HP : 0 < 2 ^ (ex + 1074)) by (apply pow2_pos; lia).
  assert (HP' : 0 < 2 ^ (e' + 1074)) by (apply pow2_pos; lia).
  assert (Hsplit : 2 ^ (e' + 1074) = 2 ^ n1 * 2 ^ (ex + 1074)).
  { rewrite <- Z.pow_add_r by lia. f_equal. lia. }
  assert (Hn1p : 0 < 2 ^ n1) by (apply pow2_pos; lia).
  assert (Hqv : q * 2 ^ (e' + 1074) <= mx * 2 ^ (ex + 1074)).
  { rewrite Hsplit. nia. }
  assert (HA : 0 <= m1 /\ m1 * 2 ^ (e' + 1074) <= i * 2 ^ 1074).
  { destruct (round_nearest_even_cases q (loc_of_shr_record mrs'))
      as [Hr|[Hr Hl]]; fold m1 in Hr; rewrite Hr.
    - split; lia.
    - apply loc_of_flag in Hl.
      assert (Hstrict : q * 2 ^ (e' + 1074) < i * 2 ^ 1074).
      { destruct (Hqf Hl) as [Hlt|Hf].
        - rewrite Hsplit. nia.
        - specialize (Hlx (Hrf Hf)). lia. }
      assert (He0 : e' <= 0).
      { destruct (Z.eq_dec n1 0) as [Hz|Hnz].
        - rewrite (Hsame Hz) in Hl. specialize (Hlx (Hrf Hl)). lia.
        - destruct (Z.le_gt_cases e' 0) as [|Hpos]; [assumption | exfalso].
          specialize (Hfexp ltac:(lia)).
          unfold fexp, emin, prec, emax in Hfexp.
          destruct mx as [|p|p]; cbn [Zdigits2] in Hfexp; [ | | lia].
          + destruct (Hqf Hl) as [Hlt|Hf]; [nia|].
            specialize (Hlx (Hrf Hf)). lia.
          + pose proof (digits2_bounds p) as [Hd _].
            set (d := Z.pos (digits2_pos p)) in *.
            assert (2 ^ (d - 1) * 2 ^ (ex + 1074) <= i * 2 ^ 1074) by nia.
            rewrite <- Z.pow_add_r in H by lia.
            assert (2 ^ (53 + 1074) <= 2 ^ (d - 1 + (ex + 1074)))
              by (apply pow2_mono; lia).
            rewrite (Z.pow_add_r 2 53 1074) in H0 by lia.
            assert (0 < 2 ^ 1074) by (apply pow2_pos; lia).
            nia. }
      assert (Hgrid : 2 ^ 1074 = 2 ^ (- e') * 2 ^ (e' + 1074)).
      { rewrite <- Z.pow_add_r by lia. f_equal. lia. }
      assert (0 < 2 ^ (- e')) by (apply pow2_pos; lia).
      split; [lia|]. rewrite Hgrid. apply grid_step; try assumption.
      now rewrite <- Hgrid. }
  destruct HA as [Hm1 Hm1v].
  destruct (shr_fexp prec emax m1 e' loc_Exact) as [mrs'' e''] eqn:E2.
  destruct (shr_fexp_spec _ _ _ _ _ Hm1 E2)
    as (n2 & Hn2 & He'' & (Hm2 & Hm2m & _) & _ & _).
  cbn [shr_record_of_loc shr_m] in Hm2m.
  assert (Hsplit2 : 2 ^ (e'' + 1074) = 2 ^ n2 * 2 ^ (e' + 1074)).
  { rewrite <- Z.pow_add_r by lia. f_equal. lia. }
  assert (Hn2p : 0 < 2 ^ n2) by (apply pow2_pos; lia).
  assert (Hv : shr_m mrs'' * 2 ^ (e'' + 1074) <= i * 2 ^ 1074).
  { rewrite Hsplit2. nia. }
  destruct (shr_m mrs'') as [|m|m] eqn:Em2; [cbn; split; [reflexivity|] | | lia].
  - assert (0 < 2 ^ 1074) by (apply pow2_pos; lia). nia.
  - assert (He : e'' < 53).
    { destruct (Z.lt_ge_cases e'' 53) as [|Hge]; [assumption | exfalso].
      assert (2 ^ (53 + 1074) <= 2 ^ (e'' + 1074)) by (apply pow2_mono; lia).
      rewrite (Z.pow_add_r 2 53 1074) in H by lia.
      assert (0 < 2 ^ 1074) by (apply pow2_pos; lia).
      assert (0 < 2 ^ (e'' + 1074)) by (apply pow2_pos; lia).
      nia. }
    replace (e'' <=? emax - prec) with true
      by (symmetry; apply Z.leb_le; unfold emax, prec; lia).
    cbn [nn units]. split; [apply Z.leb_le; lia | exact Hv].
Qed.

Lemma iter_xO (m d : positive) :
  Zpos (Pos.iter xO m d) = Zpos m * 2 ^ Zpos d.
Proof.
  induction d as [|d IH] using Pos.peano_ind.
  - cbn [Pos.iter]. lia.
  - rewrite Pos.iter_succ, Pos2Z.inj_succ, Z.pow_succ_r by lia.
    rewrite Pos2Z.inj_xO, IH. lia.
Qed.

Lemma shl_align_spec (mx : positive) (ex ex' : Z) :
  let e' := snd (shl_align mx ex ex') in
  e' = Z.min ex ex' /\
  Zpos (fst (shl_align mx ex ex')) = Zpos mx * 2 ^ (ex - e').
Proof.
  unfold shl_align. destruct (ex' - ex) as [|d|d] eqn:E; cbn [fst snd].
  - split; [lia|]. replace (ex - ex) with 0 by lia. lia.
  - split; [lia|]. replace (ex - ex) with 0 by lia. lia.
  - split; [lia|]. rewrite iter_xO. f_equal. f_equal. lia.
Qed.

Lemma binary_round_bound (mx : positive) (ex i : Z) :
  -1074 <= ex -> 0 <= i < 2 ^ 53 ->
  Zpos mx * 2 ^ (ex + 1074) <= i * 2 ^ 1074 ->
  nn (binary_round prec emax false mx ex) = true /\
  units (binary_round prec emax false mx ex) <= i * 2 ^ 1074.
Proof.
  intros Hex Hi Hle. unfold binary_round.
  pose proof (shl_align_spec mx ex (fexp prec emax (Zpos (digits2_pos mx) + ex)))
    as [He Hm].
  destruct (shl_align mx ex (fexp prec emax (Z.pos (digits2_pos mx) + ex)))
    as [mz ez]. cbn [fst snd] in He, Hm.
  assert (Hez : -1074 <= ez <= ex).
  { rewrite He. unfold fexp, emin, prec, emax. lia. }
  apply binary_round_aux_bound; try lia; [|congruence].
  rewrite Hm, <- Z.mul_assoc, <- Z.pow_add_r by lia.
  now replace (ex - ez + (ez + 1074)) with (ex + 1074) by lia.
Qed.

(** The sum of two nonnegative floats, when their exact sum is at most an
    integer [i] below [2^53], is at most [i]. *)
Lemma SFadd_bound (x y : spec_float) (i : Z) :
  nn x = true -> nn y = true -> 0 <= i < 2 ^ 53 ->
  units x + units y <= i * 2 ^ 1074 ->
  nn (SFadd prec emax x y) = true /\
  units (SFadd prec emax x y) <= i * 2 ^ 1074.
Proof.
  intros Hx Hy Hi Hle.
  assert (H0 : 0 <= i * 2 ^ 1074).
  { assert (0 < 2 ^ 1074) by (apply pow2_pos; lia). nia. }
  destruct x as [sx|sx| |sx mx ex]; try discriminate;
    destruct y as [sy|sy| |sy my ey]; try discriminate.
  - destruct sx, sy; cbn; split; try reflexivity; exact H0.
  - cbn [SFadd]. split; [exact Hy | cbn [units] in *; lia].
  - cbn [SFadd]. split; [exact Hx | cbn [units] in *; lia].
  - destruct sx; [discriminate|]. destruct sy; [discriminate|].
    cbn [nn] in Hx, Hy. apply Z.leb_le in Hx, Hy.
    cbn [SFadd cond_Zopp].
    pose proof (shl_align_spec mx ex (Z.min ex ey)) as [Hex Hmx].
    pose proof (shl_align_spec my ey (Z.min ex ey)) as [Hey Hmy].
    cbn zeta in Hex, Hmx, Hey, Hmy.
    set (ax := fst (shl_align mx ex (Z.min ex ey))) in *.
    set (ay := fst (shl_align my ey (Z.min ex ey))) in *.
    change (Z.pos ax + Z.pos ay) with (Z.pos (ax + ay)).
    cbn [binary_normalize].
    apply binary_round_bound; [lia | exact Hi |].
    rewrite Pos2Z.inj_add, Hmx, Hmy, Hex, Hey.
    replace (Z.min ex (Z.min ex ey)) with (Z.min ex ey) by lia.
    replace (Z.min ey (Z.min ex ey)) with (Z.min ex ey) by lia.
    rewrite Z.mul_add_distr_r, <- !Z.mul_assoc, <- !Z.pow_add_r by lia.
    replace (ex - Z.min ex ey + (Z.min ex ey + 1074)) with (ex + 1074) by lia.
    replace (ey - Z.min ex ey + (Z.min ex ey + 1074)) with (ey + 1074) by lia.
    exact Hle.
Qed.

Lemma new_location_exact (n r : Z) :
  new_location n r <> loc_Exact -> r <> 0.
Proof.
  intros H ->. apply H. unfold new_location, new_location_even, new_location_odd.
  now destruct (Z.even n).
Qed.

Lemma cancel_le (a b c : Z) : 0 < c -> c * a <= c * b -> a <= b.
Proof. intros. nia. Qed.

Lemma cancel_lt (a b c : Z) : 0 < c -> c * a < c * b -> a < b.
Proof. intros. nia. Qed.

(** The quotient of a nonnegative float by a normal float of value at
    least 1 and not below the dividend is at most 1. *)
Lemma SFdiv_bound (x : spec_float) (mD : positive) (eD : Z) :
  nn x = true -> Zpos (digits2_pos mD) = 53 -> -1074 <= eD <= 0 ->
  units x <= Zpos mD * 2 ^ (eD + 1074) ->
  nn (SFdiv prec emax x (S754_finite false mD eD)) = true /\
  units (SFdiv prec emax x (S754_finite false mD eD)) <= 1 * 2 ^ 1074.
Proof.
  intros Hx HdD HeD Hle.
  assert (H1074 : 0 < 2 ^ 1074) by (apply pow2_pos; lia).
  destruct x as [sx|sx| |sx mx ex]; try discriminate.
  - cbn. split; [reflexivity | lia].
  - destruct sx; [discriminate|]. cbn [nn] in Hx. apply Z.leb_le in Hx.
    cbn [units] in Hle. cbn [SFdiv xorb].
    unfold SFdiv_core_binary. cbn [Zdigits2]. rewrite HdD.
    set (d := Z.pos (digits2_pos mx)) in *.
    set (e' := Z.min (fexp prec emax (d + ex - (53 + eD))) (ex - eD)).
    assert (He'lo : -1074 <= e').
    { unfold e', fexp, emin, prec, emax. lia. }
    assert (He'hi : e' <= ex - eD) by (unfold e'; lia).
    set (s := ex - eD - e').
    set (m' := match s with
               | 0 => Z.pos mx
               | Z.pos _ => Z.shiftl (Z.pos mx) s
               | Z.neg _ => 0
               end).
    assert (Hm' : m' = Z.pos mx * 2 ^ s).
    { unfold m'. destruct s as [|p|p] eqn:Es; [lia | | lia].
      now rewrite Z.shiftl_mul_pow2 by lia. }
    pose proof (Z_div_mod m' (Z.pos mD) ltac:(lia)) as Hdiv.
    destruct (Z.div_eucl m' (Z.pos mD)) as [q r]. destruct Hdiv as [Hqr Hr].
    assert (Hs : 0 <= s) by (unfold s; lia).
    assert (H2s : 0 < 2 ^ s) by (apply pow2_pos; lia).
    assert (Hq : 0 <= q) by nia.
    assert (HP : 0 < 2 ^ (e' + 1074)) by (apply pow2_pos; lia).
    assert (HQ : 0 < 2 ^ (- eD)) by (apply pow2_pos; lia).
    (* the value of the dividend, scaled by the divisor's exponent *)
    assert (Hval : m' * 2 ^ (e' + 1074) = Z.pos mx * 2 ^ (ex + 1074) * 2 ^ (- eD)).
    { rewrite Hm', <- !Z.mul_assoc, <- !Z.pow_add_r by lia.
      f_equal. f_equal. unfold s. lia. }
    assert (Hbound : Z.pos mx * 2 ^ (ex + 1074) * 2 ^ (- eD)
                     <= Z.pos mD * 2 ^ 1074).
    { replace (2 ^ 1074) with (2 ^ (eD + 1074) * 2 ^ (- eD)).
      - rewrite Z.mul_assoc. apply Z.mul_le_mono_nonneg_r; lia.
      - rewrite <- Z.pow_add_r by lia. f_equal. lia. }
    apply binary_round_aux_bound; try lia.
    + apply (cancel_le _ _ (Z.pos mD)); [lia|].
      rewrite Z.mul_1_l.
      assert (Z.pos mD * q * 2 ^ (e' + 1074) <= m' * 2 ^ (e' + 1074)).
      { apply Z.mul_le_mono_nonneg_r; lia. }
      lia.
    + intros Hl. apply new_location_exact in Hl. split.
      * destruct (Z.le_gt_cases e' 0) as [|Hpos]; [assumption | exfalso].
        assert (Hd : 0 < d + ex - (53 + eD) - 53).
        { unfold e', fexp, emin, prec, emax in Hpos. lia. }
        pose proof (digits2_bounds mx) as [Hlow _]. fold d in Hlow.
        pose proof (digits2_bounds mD) as [_ Hup]. rewrite HdD in Hup.
        assert (Hd1 : 0 <= d - 1) by (unfold d; lia).
        assert (H2 : 2 ^ (d - 1) * 2 ^ (ex + 1074) <= Z.pos mx * 2 ^ (ex + 1074)).
        { apply Z.mul_le_mono_nonneg_r; [apply Z.pow_nonneg|]; lia. }
        rewrite <- Z.pow_add_r in H2 by lia.
        assert (H3 : 2 ^ (53 + (eD + 1074)) <= 2 ^ (d - 1 + (ex + 1074)))
          by (apply pow2_mono; lia).
        rewrite Z.pow_add_r in H3 by lia.
        assert (0 < 2 ^ (eD + 1074)) by (apply pow2_pos; lia).
        assert (Z.pos mD * 2 ^ (eD + 1074) < 2 ^ 53 * 2 ^ (eD + 1074)).
        { apply Z.mul_lt_mono_pos_r; lia. }
        lia.
      * apply (cancel_lt _ _ (Z.pos mD)); [lia|].
        rewrite Z.mul_1_l.
        assert (Z.pos mD * q * 2 ^ (e' + 1074) < m' * 2 ^ (e' + 1074)).
        { apply Z.mul_lt_mono_pos_r; lia. }
        lia.
Qed.

(** The float 1 as a spec float. *)
Definition one_sf : spec_float := S754_finite false 4503599627370496 (-52).

Lemma valid_finite (s : bool) (m : positive) (e : Z) :
  SpecFloat.valid_binary prec emax (S754_finite s m e) = true ->
  -1074 <= e /\ Zpos (digits2_pos m) <= 53 /\
  (-1074 < e -> Zpos (digits2_pos m) = 53).
Proof.
  cbn [SpecFloat.valid_binary]. unfold bounded, canonical_mantissa.
  intros H. apply andb_true_iff in H as [H _]. apply Z.eqb_eq in H.
  unfold fexp, emin, prec, emax in H. lia.
Qed.

Lemma pow2_1074 : 2 ^ 1074 = 2 ^ 52 * 2 ^ 1022.
Proof. now rewrite <- Z.pow_add_r by lia. Qed.

(** A valid float in [0, 1] is nonnegative with at most [2^1074] units. *)
Lemma unit_units (x : spec_float) :
  SpecFloat.valid_binary prec emax x = true ->
  SFleb (S754_zero false) x = true -> SFleb x one_sf = true ->
  nn x = true /\ units x <= 2 ^ 1074.
Proof.
  intros Hv H0 H1.
  assert (H1074 : 0 < 2 ^ 1074) by (apply pow2_pos; lia).
  destruct x as [s|s| |s m e]; try discriminate.
  - cbn. split; [reflexivity | lia].
  - destruct s; discriminate.
  - destruct s; [discriminate|].
    destruct (valid_finite _ _ _ Hv) as (He & Hd & _).
    cbn [nn units]. split; [apply Z.leb_le; exact He|].
    unfold SFleb, SFcompare, one_sf in H1.
    pose proof (digits2_bounds m) as [_ Hm].
    assert (Hm53 : Z.pos m < 2 ^ 53).
    { eapply Z.lt_le_trans; [exact Hm | apply pow2_mono; lia]. }
    destruct (e ?= -52) eqn:E.
    + apply Z.compare_eq in E.
      rewrite Pos.compare_cont_spec in H1. cbn [Pos.switch_Eq] in H1.
      assert (H52 : Z.pos 4503599627370496 = 2 ^ 52) by reflexivity.
      assert (Hle : Z.pos m <= 2 ^ 52).
      { destruct (m ?= 4503599627370496)%positive eqn:Ec; try discriminate.
        - apply Pos.compare_eq in Ec. subst m. lia.
        - pose proof (Pos2Z.pos_lt_pos _ _ Ec). lia. }
      assert (He52 : e + 1074 = 1022) by lia.
      rewrite He52, pow2_1074.
      apply Z.mul_le_mono_nonneg_r; [apply Z.pow_nonneg|]; lia.
    + assert (Elt : e < -52) by exact E.
      assert (HP : 0 < 2 ^ (e + 1074)) by (apply pow2_pos; lia).
      assert (H2 : 2 ^ 53 * 2 ^ (e + 1074) <= 2 ^ 1074).
      { rewrite <- Z.pow_add_r by lia. apply pow2_mono. lia. }
      assert (Z.pos m * 2 ^ (e + 1074) < 2 ^ 53 * 2 ^ (e + 1074))
        by (apply Z.mul_lt_mono_pos_r; lia).
      lia.
    + discriminate.
Qed.

(** Conversely, a valid nonnegative float with at most [2^1074] units
    lies in [0, 1]. *)
Lemma units_unit (x : spec_float) :
  SpecFloat.valid_binary prec emax x = true ->
  nn x = true -> units x <= 2 ^ 1074 ->
  SFleb (S754_zero false) x = true /\ SFleb x one_sf = true.
Proof.
  intros Hv Hn Hu.
  destruct x as [s|s| |s m e]; try discriminate.
  - now split.
  - destruct s; [discriminate|]. split; [reflexivity|].
    destruct (valid_finite _ _ _ Hv) as (He & Hd & Hnorm).
    cbn [units] in Hu. unfold SFleb, SFcompare, one_sf.
    destruct (e ?= -52) eqn:E; [| reflexivity | exfalso].
    + apply Z.compare_eq in E.
      assert (He52 : e + 1074 = 1022) by lia.
      rewrite He52, pow2_1074 in Hu. clear He52 E Hnorm He Hv.
      assert (H1022 : 0 < 2 ^ 1022) by (apply pow2_pos; lia).
      assert (Hle : Z.pos m <= 2 ^ 52).
      { apply (cancel_le _ _ (2 ^ 1022)); [exact H1022 | lia]. }
      rewrite Pos.compare_cont_spec. cbn [Pos.switch_Eq].
      destruct (m ?= 4503599627370496)%positive eqn:Ec; try reflexivity.
      pose proof (Pos2Z.pos_lt_pos _ _ (proj1 (Pos.compare_gt_iff _ _) Ec)).
      assert (Z.pos 4503599627370496 = 2 ^ 52) by reflexivity. lia.
    + assert (Egt : -52 < e) by (apply Z.compare_gt_iff; exact E).
      specialize (Hnorm ltac:(lia)).
      pose proof (digits2_bounds m) as [Hlow _]. rewrite Hnorm in Hlow.
      replace (53 - 1) with 52 in Hlow by lia.
      assert (HP : 0 < 2 ^ (e + 1074)) by (apply pow2_pos; lia).
      assert (H2 : 2 ^ 52 * 2 ^ 1023 <= 2 ^ 52 * 2 ^ (e + 1074)).
      { apply Z.mul_le_mono_nonneg_l; [lia | apply pow2_mono; lia]. }
      assert (H3 : 2 ^ 52 * 2 ^ (e + 1074) <= Z.pos m * 2 ^ (e + 1074)).
      { apply Z.mul_le_mono_nonneg_r; lia. }
      assert (H4 : 2 ^ 1074 < 2 ^ 52 * 2 ^ 1023).
      { rewrite <- Z.pow_add_r by lia. apply Z.pow_lt_mono_r; lia. }
      lia.
Qed.

End Rounding.

(** * The range of the window means *)

Module Mean.
Import Rounding.

Lemma unit_range_units (a : float) :
  unit_range a -> nn (Prim2SF a) = true /\ units (Prim2SF a) <= 2 ^ 1074.
Proof.
  intros [H0 H1]. rewrite FloatAxioms.leb_spec in H0, H1.
  apply unit_units; [apply Prim2SF_valid | exact H0 | exact H1].
Qed.

Lemma units_unit_range (a : float) :
  nn (Prim2SF a) = true -> units (Prim2SF a) <= 2 ^ 1074 -> unit_range a.
Proof.
  intros Hn Hu. unfold unit_range. rewrite !FloatAxioms.leb_spec.
  exact (units_unit _ (Prim2SF_valid a) Hn Hu).
Qed.

(** The running sum of [calculateAverage]: adding values of [0, 1] to a
    sum that is at most [i] leaves it at most [i] plus their number. *)
Lemma sum_bound (l : list float) (acc : float) (i : Z) :
  0 <= i -> i + Z.of_nat (length l) < 2 ^ 53 ->
  nn (Prim2SF acc) = true -> units (Prim2SF acc) <= i * 2 ^ 1074 ->
  Forall unit_range l ->
  nn (Prim2SF (fold_left (fun sum v => (sum + v)%float) l acc)) = true /\
  units (Prim2SF (fold_left (fun sum v => (sum + v)%float) l acc))
    <= (i + Z.of_nat (length l)) * 2 ^ 1074.
Proof.
  revert acc i. induction l as [|a l IH]; intros acc i Hi Hlen Hn Hu Hl.
  - cbn [fold_left length]. split; [exact Hn|].
    now replace (i + Z.of_nat 0) with i by lia.
  - apply Forall_cons in Hl as [Ha Hl]. cbn [fold_left].
    cbn [length] in Hlen |- *. rewrite Nat2Z.inj_succ in Hlen |- *.
    destruct (unit_range_units a Ha) as [Hna Hua].
    destruct (SFadd_bound (Prim2SF acc) (Prim2SF a) (i + 1) Hn Hna
                ltac:(lia) ltac:(lia)) as [Hn' Hu'].
    replace (i + Z.succ (Z.of_nat (length l)))
      with (i + 1 + Z.of_nat (length l)) by lia.
    apply IH; try lia; try assumption; now rewrite add_spec.
Qed.

Lemma average_unit (w : list float) :
  length w = W -> Forall unit_range w -> unit_range (calculateAverage w).
Proof.
  intros Hlen Hw. unfold calculateAverage.
  rewrite Hlen, Estimator.W_windowSize.
  destruct (sum_bound w 0%float 0 ltac:(lia)) as [Hn Hu]; try assumption.
  - rewrite Hlen, Estimator.W_windowSize. unfold windowSize. lia.
  - reflexivity.
  - reflexivity.
  - rewrite Hlen, Estimator.W_windowSize in Hu.
    set (sum := fold_left (fun sum v => (sum + v)%float) w 0%float) in *.
    assert (HD : Prim2SF (float64_of_int windowSize) =
                 S754_finite false 8796093022208000 (-38)) by reflexivity.
    assert (HmD : Z.pos 8796093022208000 = 32000 * 2 ^ 38) by reflexivity.
    assert (Hpow : 2 ^ 1074 = 2 ^ 38 * 2 ^ (-38 + 1074)).
    { rewrite <- Z.pow_add_r by lia. reflexivity. }
    destruct (SFdiv_bound (Prim2SF sum) 8796093022208000 (-38) Hn eq_refl
                ltac:(lia)) as [Hq Hqu].
    + rewrite HmD. unfold windowSize in Hu. rewrite Hpow in Hu. lia.
    + apply units_unit_range; rewrite div_spec, HD; unfold SF64div;
        [exact Hq | lia].
Qed.

(** X14. The mean of a full window whose slots all lie in [0, 1] lies in
    [0, 1] itself: the rounding of the 32000 additions and of the
    division never carries it outside. *)
Theorem average_in_unit_range (w : list float) :
  Z.of_nat (length w) = windowSize -> Forall unit_range w ->
  unit_range (calculateAverage w).
Proof.
  intros Hlen Hw. apply average_unit; [|exact Hw].
  pose proof Estimator.W_windowSize. lia.
Qed.

Lemma average_in_unit_range_witness :
  unit_range (calculateAverage (replicate W 1%float)).
Proof.
  apply (average_in_unit_range (replicate W 1%float)).
  - rewrite length_replicate. apply Estimator.W_windowSize.
  - apply Forall_replicate. now split.
Defined.

(** The mean of the window that ends [W] samples after position [k],
    without the most negative sample. *)
Lemma windowMean_unit (samples : list Z) (k : nat) :
  Forall (fun s => is_int16 s /\ s <> -32768) samples ->
  (k + W <= length samples)%nat ->
  unit_range (windowMean samples k).
Proof.
  intros H Hk. unfold windowMean. apply average_unit.
  - unfold ringOf. rewrite length_rotate. apply Estimator.recent_length. lia.
  - unfold ringOf. apply Forall_forall. intros a Ha.
    apply elem_of_rotate in Ha. revert a Ha. apply Forall_forall.
    unfold recent. apply Forall_fmap, Forall_take, Forall_drop.
    eapply Forall_impl; [exact H|].
    intros s [Hs Hne]. apply Range.amplitude_unit. unfold is_int16 in Hs. lia.
Qed.

(** X15. As long as no sample is -32768, every window mean that the
    estimator evaluates lies in [0, 1]. *)
Theorem means_in_unit_range (samples : list Z) :
  Forall (fun s => is_int16 s /\ s <> -32768) samples ->
  Forall unit_range (evaluations samples).
Proof.
  intros H. rewrite Estimator.evaluations_closed.
  apply Forall_forall. intros c Hc.
  apply list_elem_of_fmap in Hc as (k & -> & Hk).
  apply list_elem_of_In, in_seq in Hk.
  apply windowMean_unit; [exact H | lia].
Qed.

Lemma means_in_unit_range_witness :
  Forall unit_range (evaluations (replicate W 32767)).
Proof.
  apply (means_in_unit_range (replicate W 32767)).
  apply Forall_replicate. unfold is_int16. lia.
Defined.

(** C6, as the code has it.  For every 16-bit sample other than -32768
    the amplitude lies in [0, 1]; consequently, as long as no such sample
    comes in, every slot of the window lies in [0, 1] at all times, and
    so does every window mean: the mean of the window as it stands after
    any number of samples, and each mean the estimator evaluates. *)
Theorem unit_range_invariant (samples : list Z) :
  Forall (fun s => is_int16 s /\ s <> -32768) samples ->
  Forall (fun s => unit_range (amplitudeOf s)) samples
  /\ Forall unit_range (window (fst (runEstimator newEstimator samples)))
  /\ unit_range
       (calculateAverage (window (fst (runEstimator newEstimator samples))))
  /\ Forall unit_range (evaluations samples).
Proof.
  intros H.
  destruct (Range.amplitudes_and_slots samples H) as [Ha Hw].
  split; [exact Ha|]. split; [exact Hw|]. split.
  - apply average_unit; [|exact Hw].
    exact (Estimator.inv_length _ _
             (Window.Inv_run samples [] newEstimator Estimator.Inv_new)).
  - rewrite Estimator.evaluations_closed.
    apply Forall_fmap, Forall_forall. intros k Hk.
    apply list_elem_of_In, in_seq in Hk.
    apply windowMean_unit; [exact H | lia].
Qed.

Lemma unit_range_invariant_witness :
  Forall (fun s => unit_range (amplitudeOf s)) (replicate W (-32767))
  /\ Forall unit_range
       (window (fst (runEstimator newEstimator (replicate W (-32767)))))
  /\ unit_range
       (calculateAverage
          (window (fst (runEstimator newEstimator (replicate W (-32767))))))
  /\ Forall unit_range (evaluations (replicate W (-32767))).
Proof.
  apply (unit_range_invariant (replicate W (-32767))).
  apply Forall_replicate. unfold is_int16. lia.
Defined.

End Mean.

(** * The whole session: capture, then encode *)

Module Session.
Import Bin BinFacts Capture.

(** The blocks behind a returned buffer, for well-formed ticks. *)
Lemma returned_blocks (ticks : list tick) (buf : list byte) :
  Forall wf_tick ticks ->
  recordAudioWithDynamicNoiseFloor ticks = Interrupted buf \/
  recordAudioWithDynamicNoiseFloor ticks = Stopped buf ->
  exists blocks : list (list Z),
    buf = write_int16s (concat blocks) /\
    Z.of_nat (length (concat blocks)) = 512 * Z.of_nat (length blocks) /\
    (recordAudioWithDynamicNoiseFloor ticks = Stopped buf ->
     feed newDetector (evaluations (concat blocks)) = Stop).
Proof.
  intros Hwf H.
  destruct (Loop.recordLoop_trace ticks [] newEstimator newDetector buf
              eq_refl eq_refl) as [Hs Hi].
  assert (Hlen : forall blocks : list (list Z),
             Forall (fun b => In (Block b) ticks) blocks ->
             Z.of_nat (length (concat blocks)) = 512 * Z.of_nat (length blocks)).
  { intros blocks Hin. apply (length_concat_blocks blocks).
    eapply Forall_impl; [exact Hin|]. intros b Hb.
    rewrite Forall_forall in Hwf.
    exact (proj1 (Hwf _ (proj2 (list_elem_of_In _ _) Hb))). }
  destruct H as [H|H].
  - destruct (Hi H) as (blocks & d & Hin & -> & _). cbn [app].
    exists blocks. split; [reflexivity|]. split; [now apply Hlen|].
    rewrite H. discriminate.
  - destruct (Hs H) as (blocks & Hin & -> & Hf). cbn [app] in *.
    exists blocks. split; [reflexivity|]. split; [now apply Hlen | now intros _].
Qed.

(** X16. Capture and encoding composed as in [main]: for a run over
    512-sample blocks that returns, by interrupt or by the detector, a
    buffer of [b] blocks with [36 + 1024 b < 2^32], the stream written
    has [44 + 1024 b] bytes, and its header reads data size [1024 b] and
    chunk size [36 + 1024 b]. *)
Theorem session_output (ticks : list tick) (buf : list byte) :
  Forall wf_tick ticks ->
  recordAudioWithDynamicNoiseFloor ticks = Interrupted buf \/
  recordAudioWithDynamicNoiseFloor ticks = Stopped buf ->
  Z.of_nat (length buf) + 36 < 2 ^ 32 ->
  exists b : Z,
    0 <= b /\ Z.of_nat (length buf) = 1024 * b
    /\ Z.of_nat (length (encode buf)) = 44 + 1024 * b
    /\ Wav.parse (encode buf) = Wav.expected (36 + 1024 * b) (1024 * b).
Proof.
  intros Hwf H Hsize.
  destruct (returned_blocks ticks buf Hwf H) as (blocks & -> & Hlen & _).
  exists (Z.of_nat (length blocks)).
  assert (Hb : Z.of_nat (length (write_int16s (concat blocks))) =
               1024 * Z.of_nat (length blocks)).
  { rewrite length_write_int16s. lia. }
  split; [lia|]. split; [exact Hb|]. split.
  - rewrite Wav.length_encode. lia.
  - rewrite Wav.parse_encode. cbv zeta. rewrite Hb in *.
    rewrite (Z.mod_small (1024 * _)) by lia. now rewrite Z.mod_small by lia.
Qed.

Lemma session_output_witness :
  exists b : Z,
    0 <= b /\ Z.of_nat (length (write_int16s silentBlock)) = 1024 * b
    /\ Z.of_nat (length (encode (write_int16s silentBlock))) = 44 + 1024 * b
    /\ Wav.parse (encode (write_int16s silentBlock)) =
       Wav.expected (36 + 1024 * b) (1024 * b).
Proof.
  apply (session_output [Block silentBlock; StopClosed]).
  - constructor; [|now repeat constructor].
    split; [reflexivity|]. apply Forall_forall. intros x Hx.
    apply elem_of_replicate in Hx as [-> _]. unfold is_int16. lia.
  - left. vm_compute. reflexivity.
  - vm_compute. reflexivity.
Defined.

(** A run that the detector stops, taken apart: the ticks up to the stop
    are all blocks, the last of them is the one in which the detector
    stops, and the buffer holds these blocks and nothing else. *)
Lemma recordLoop_stopped (ticks : list tick) (seen : list (list Z))
  (e : estimator) (d : detector) (buf : list byte) :
  e = fst (runEstimator newEstimator (concat seen)) ->
  feed newDetector (evaluations (concat seen)) = Continue d ->
  recordLoop ticks (write_int16s (concat seen)) e d = Stopped buf ->
  exists (pre : list (list Z)) (b : list Z) (rest : list tick) (d' : detector),
    ticks = map Block pre ++ Block b :: rest /\
    feed newDetector (evaluations (concat (seen ++ pre))) = Continue d' /\
    feed newDetector (evaluations (concat (seen ++ pre) ++ b)) = Stop /\
    buf = write_int16s (concat (seen ++ pre) ++ b).
Proof.
  revert seen e d. induction ticks as [|t ticks IH]; intros seen e d He Hd.
  - cbn [recordLoop]. discriminate.
  - destruct t as [|block|]; cbn [recordLoop]; [discriminate| |discriminate].
    rewrite <- write_int16s_app, processBlock_feed.
    pose proof (Loop.feed_evaluations_app (concat seen) block d Hd) as Hb.
    rewrite <- He in Hb.
    destruct (feed d (snd (runEstimator e block))) as [d1|].
    + intros H.
      destruct (IH (seen ++ [block]) (fst (runEstimator e block)) d1)
        as (pre & b & rest & d' & -> & Hc & Hs & ->).
      { now rewrite Loop.concat_snoc, runEstimator_app, He. }
      { now rewrite Loop.concat_snoc. }
      { now rewrite Loop.concat_snoc. }
      exists (block :: pre), b, rest, d'.
      rewrite <- app_assoc in Hc, Hs |- *. cbn [app] in Hc, Hs |- *.
      now repeat split.
    + intros [= <-]. exists [], block, ticks, d.
      rewrite app_nil_r. now repeat split.
Qed.

(** X17. A run over 512-sample blocks that the detector stops reads
    blocks only, up to and including the one in which the detector
    stops: the ticks begin with the blocks [pre], which leave the
    detector running, and the block [b], in which it stops; the buffer
    holds exactly these blocks, and [pre] has at least 62 of them, so
    that the stop comes in the 63rd block read at the earliest. *)
Theorem stopped_run_blocks (ticks : list tick) (buf : list byte) :
  Forall wf_tick ticks ->
  recordAudioWithDynamicNoiseFloor ticks = Stopped buf ->
  exists (pre : list (list Z)) (b : list Z) (rest : list tick) (d : detector),
    ticks = map Block pre ++ Block b :: rest /\
    Forall (fun blk => Z.of_nat (length blk) = blockSize) (pre ++ [b]) /\
    feed newDetector (evaluations (concat pre)) = Continue d /\
    feed newDetector (evaluations (concat pre ++ b)) = Stop /\
    buf = write_int16s (concat pre ++ b) /\
    (62 <= length pre)%nat.
Proof.
  intros Hwf H.
  destruct (recordLoop_stopped ticks [] newEstimator newDetector buf
              eq_refl eq_refl H) as (pre & b & rest & d & -> & Hc & Hs & ->).
  cbn [app] in Hc, Hs |- *.
  assert (Hlen : Forall (fun blk => Z.of_nat (length blk) = blockSize)
                   (pre ++ [b])).
  { apply Forall_app in Hwf as [Hpre Hb].
    apply Forall_app. split.
    - apply Forall_forall. intros blk Hblk.
      rewrite Forall_forall in Hpre.
      exact (proj1 (Hpre (Block blk)
                      (proj2 (list_elem_of_In _ _) (in_map Block _ _
                         (proj1 (list_elem_of_In _ _) Hblk))))).
    - constructor; [|constructor].
      apply Forall_cons in Hb as [Hb _]. exact (proj1 Hb). }
  exists pre, b, rest, d.
  split; [reflexivity|]. split; [exact Hlen|]. split; [exact Hc|].
  split; [exact Hs|]. split; [reflexivity|].
  destruct (Loop.feed_stop_index _ _ Hs) as [k Hk].
  pose proof (Onset.stop_distance _ _ _ Onset.reachable_new Hk) as H6.
  pose proof (Onset.stopIndex_lt _ _ _ Hk) as Hl.
  cbn [recordingStarted newDetector] in H6.
  rewrite Estimator.evaluations_closed, length_map, length_seq in Hl.
  pose proof Estimator.W_windowSize as HW. unfold windowSize in HW.
  pose proof (length_concat_blocks _ Hlen) as Hn.
  rewrite Loop.concat_snoc, !length_app in Hn. cbn [length] in Hn.
  unfold blockSize in Hn. rewrite length_app in Hl. lia.
Qed.

Lemma stopped_run_blocks_witness :
  exists (pre : list (list Z)) (b : list Z) (rest : list tick) (d : detector),
    map Block blipRun ++ [Block silentBlock] =
      map Block pre ++ Block b :: rest /\
    Forall (fun blk => Z.of_nat (length blk) = blockSize) (pre ++ [b]) /\
    feed newDetector (evaluations (concat pre)) = Continue d /\
    feed newDetector (evaluations (concat pre ++ b)) = Stop /\
    write_int16s (concat blipRun ++ silentBlock) =
      write_int16s (concat pre ++ b) /\
    (62 <= length pre)%nat.
Proof.
  apply (stopped_run_blocks (map Block blipRun ++ [Block silentBlock])).
  - apply Forall_app. split.
    + apply Forall_fmap. constructor.
      * split; [reflexivity|]. constructor; [unfold is_int16; lia|].
        apply Forall_forall. intros x Hx.
        apply elem_of_replicate in Hx as [-> _]. unfold is_int16. lia.
      * apply Forall_replicate. split; [reflexivity|].
        apply Forall_forall. intros x Hx.
        apply elem_of_replicate in Hx as [-> _]. unfold is_int16. lia.
    + constructor; [|constructor]. split; [reflexivity|].
      apply Forall_forall. intros x Hx.
      apply elem_of_replicate in Hx as [-> _]. unfold is_int16. lia.
  - exact blip_stops.
Defined.

End Session.
